(** * HllSet system: the dictionary-based sketches of [hllset_system.ipynb]

    A shallow embedding of the Python functions [ingest_dataset], [union],
    [intersection], [complement], [difference] and [jaccard_similarity],
    and the properties of the sketch algebra proved about them.

    An HllSet is a Python [dict] from bucket ids to bucket records; a bucket
    record is a [dict] with the key ["zeros"] and, when it comes from
    ingestion, the keys ["frequencies"] and ["documents"]. *)

From Stdlib Require Import ZArith QArith Reals Lra Lia.
From stdpp Require Import gmap list sorting.

#[local] Close Scope Q_scope.

Module HllSetSystem.

(** ** Data model *)

(** A bucket record.  The two metadata keys are optional: [union],
    [intersection] and [complement] build records with ["zeros"] only. *)
Record Bucket := mkBucket {
  zeros : list nat;
  frequencies : option (list nat);
  documents : option (list nat)
}.

#[global] Instance Bucket_eq_dec : EqDecision Bucket.
Proof. solve_decision. Defined.

(** The HllSet itself: bucket id ↦ bucket record. *)
Abbreviation HllSet := (gmap Z Bucket).

(** What a Python call does: it returns a value or raises. *)
Inductive exn := ValueError | KeyError | ZeroDivisionError.

Inductive outcome (A : Type) :=
  | Returns (a : A)
  | Raises (e : exn).
Arguments Returns {A} a.
Arguments Raises {A} e.

Definition bind {A B} (o : outcome A) (k : A → outcome B) : outcome B :=
  match o with
  | Returns a => k a
  | Raises e => Raises e
  end.

Notation "'do' x <- o ; k" := (bind o (λ x, k))
  (at level 10, x name, o at level 100, k at level 200).

(** ** Python sets turned into lists

    [list(s)] enumerates a set in the order of its hash table, which depends
    on how the set was built.  The three places of the source that turn a set
    into a list are taken as operations of an interface that fixes what every
    implementation guarantees: each member once, and nothing else. *)
Class SetOrder := {
  (** [list(set(l))] *)
  list_set : list nat → list nat;
  (** [list(set(l1).intersection(l2))] *)
  list_set_intersection : list nat → list nat → list nat;
  (** [list(set(l1) - set(l2))] *)
  list_set_difference : list nat → list nat → list nat;
  NoDup_list_set l : NoDup (list_set l);
  elem_of_list_set l x : x ∈ list_set l ↔ x ∈ l;
  NoDup_list_set_intersection l1 l2 : NoDup (list_set_intersection l1 l2);
  elem_of_list_set_intersection l1 l2 x :
    x ∈ list_set_intersection l1 l2 ↔ x ∈ l1 ∧ x ∈ l2;
  NoDup_list_set_difference l1 l2 : NoDup (list_set_difference l1 l2);
  elem_of_list_set_difference l1 l2 x :
    x ∈ list_set_difference l1 l2 ↔ x ∈ l1 ∧ x ∉ l2
}.

(** ** The loop that fills a result dictionary

    [union], [intersection] and [complement] all have the shape
    [result = {}; for b in keys: (maybe) result[b] = ...; return result]. *)
Definition fill (keys : list Z) (body : Z → option Bucket) : HllSet :=
  foldl (λ result b,
           match body b with
           | Some v => <[b := v]> result
           | None => result
           end) ∅ keys.

(** [hllset.get(b, {"zeros": []})["zeros"]] *)
Definition get_zeros (hllset : HllSet) (b : Z) : list nat :=
  match hllset !! b with
  | Some bucket => zeros bucket
  | None => []
  end.

(** The truth value of a list: non-empty. *)
Definition truthy {A} (l : list A) : bool :=
  match l with [] => false | _ => true end.

Section Algebra.
Context `{SetOrder}.

Definition union (hllset1 hllset2 : HllSet) : HllSet :=
  fill (elements (dom hllset1 ∪ dom hllset2))
    (λ b,
       let zeros1 := get_zeros hllset1 b in
       let zeros2 := get_zeros hllset2 b in
       Some (mkBucket (list_set (zeros1 ++ zeros2)) None None)).

Definition intersection (hllset1 hllset2 : HllSet) : HllSet :=
  fill (elements (dom hllset1 ∩ dom hllset2))
    (λ b,
       match hllset1 !! b, hllset2 !! b with
       | Some bucket1, Some bucket2 =>
           let common_zeros :=
             list_set_intersection (zeros bucket1) (zeros bucket2) in
           if truthy common_zeros
           then Some (mkBucket common_zeros None None)
           else None
       | _, _ => None (* not reached: [b] is a key of both *)
       end).

Definition complement (hllset1 hllset2 : HllSet) : HllSet :=
  fill (elements (dom hllset1))
    (λ b,
       match hllset1 !! b with
       | Some bucket1 =>
           match hllset2 !! b with
           | None => Some bucket1
           | Some bucket2 =>
               let unique_zeros :=
                 list_set_difference (zeros bucket1) (zeros bucket2) in
               if truthy unique_zeros
               then Some (mkBucket unique_zeros None None)
               else None
           end
       | None => None (* not reached: [b] is a key of [hllset1] *)
       end).

Definition difference (hllset1 hllset2 : HllSet) : HllSet :=
  complement hllset1 hllset2.

(** [a / b] on two lengths: true division, which raises on a zero divisor. *)
Definition truediv (a b : nat) : outcome Q :=
  if decide (b = 0) then Raises ZeroDivisionError
  else Returns (Z.of_nat a # Pos.of_nat b)%Q.

Definition jaccard_similarity (hllset1 hllset2 : HllSet) : outcome Q :=
  let intersection_size := size (intersection hllset1 hllset2) in
  let union_size := size (union hllset1 hllset2) in
  if decide (0 < union_size) then truediv intersection_size union_size
  else Returns 0%Q.
End Algebra.

(** ** Ingestion *)

(** [a >> n] and [a << n] on Python integers: unbounded, and a negative
    shift count raises [ValueError]. *)
Definition rshift (a n : Z) : outcome Z :=
  if decide (n < 0)%Z then Raises ValueError else Returns (Z.shiftr a n).

Definition lshift (a n : Z) : outcome Z :=
  if decide (n < 0)%Z then Raises ValueError else Returns (Z.shiftl a n).

(** [b = (hash_val >> (64 - p)) & ((1 << p) - 1)] *)
Definition bucket_index (hash_val p : Z) : outcome Z :=
  do high <- rshift hash_val (64 - p);
  do one <- lshift 1 p;
  Returns (Z.land high (one - 1)).

(** [bucket[key].append(x)] on a metadata key, which may be missing. *)
Definition append_to (field : option (list nat)) (x : nat)
  : outcome (option (list nat)) :=
  match field with
  | Some l => Returns (Some (l ++ [x]))
  | None => Raises KeyError
  end.

(** The body of the token loop once [b] and [z] are known. *)
Definition record_pair (hllset : HllSet) (b : Z) (z doc_id : nat)
  : outcome HllSet :=
  let hllset :=
    match hllset !! b with
    | None => <[b := mkBucket [] (Some []) (Some [])]> hllset
    | Some _ => hllset
    end in
  match hllset !! b with
  | Some bucket =>
      let zeros' := zeros bucket ++ [z] in
      do frequencies' <- append_to (frequencies bucket) 1;
      do documents' <- append_to (documents bucket) doc_id;
      Returns (<[b := mkBucket zeros' frequencies' documents']> hllset)
  | None => Raises KeyError
  end.

Section Ingestion.
(** The tokenizer, the hash function and the trailing-zero counter are
    not defined by the notebook: they are what the caller supplies. *)
Context {Document Token : Type}.
Variable tokenize : Document → list Token.
Variable hash_function : Token → Z.
Variable count_trailing_zeros : Z → nat.

Definition ingest_token (p : Z) (doc_id : nat) (hllset : HllSet)
    (token : Token) : outcome HllSet :=
  let hash_val := hash_function token in
  do b <- bucket_index hash_val p;
  let z := count_trailing_zeros hash_val in
  record_pair hllset b z doc_id.

Fixpoint ingest_tokens (p : Z) (doc_id : nat) (hllset : HllSet)
    (tokens : list Token) : outcome HllSet :=
  match tokens with
  | [] => Returns hllset
  | token :: tokens =>
      do hllset <- ingest_token p doc_id hllset token;
      ingest_tokens p doc_id hllset tokens
  end.

Fixpoint ingest_documents (p : Z) (doc_id : nat) (hllset : HllSet)
    (documents : list Document) : outcome HllSet :=
  match documents with
  | [] => Returns hllset
  | document :: documents =>
      do hllset <- ingest_tokens p doc_id hllset (tokenize document);
      ingest_documents p (S doc_id) hllset documents
  end.

Definition ingest_dataset (documents : list Document) (p : Z)
  : outcome HllSet :=
  ingest_documents p 0 ∅ documents.
End Ingestion.

(** ** Views of a sketch used in the statements *)

(** The trailing-zero runs recorded in bucket [b], as a set. *)
Definition zset (hllset : HllSet) (b : Z) : gset nat :=
  list_to_set (get_zeros hllset b).

(** The sketch with every bucket read as a set of runs. *)
Definition content (hllset : HllSet) : gmap Z (gset nat) :=
  (λ bucket, list_to_set (zeros bucket)) <$> hllset.

(** The pair [(b, z)] is recorded in the sketch. *)
Definition recorded (hllset : HllSet) (b : Z) (z : nat) : Prop :=
  z ∈ get_zeros hllset b.

(** No bucket of the two sketches has a run in common. *)
Definition disjoint_sketches (A B : HllSet) : Prop :=
  ∀ b, zset A b ## zset B b.

(** The record with the runs of [bucket], once each, and nothing else. *)
Definition zeros_only `{SetOrder} (bucket : Bucket) : Bucket :=
  mkBucket (list_set (zeros bucket)) None None.

(** The buckets that hold at least one run. *)
Definition occupied (hllset : HllSet) : nat :=
  size (filter (λ entry, zeros entry.2 ≠ []) hllset).

(** Modelled from the spec: the cardinality estimate [count] of a sketch
    (section 4.4), whose implementation, the Julia module that
    [hll_sets.ipynb] includes, is not among the sources.  Only the small
    range is modelled: a mostly-empty sketch of [m = 2^p] buckets, [V] of
    them without a run, is counted by linear counting, [m * ln (m / V)]. *)
Definition count_small_range (p : nat) (hllset : HllSet) : R :=
  let m := INR (2 ^ p) in
  let V := INR (2 ^ p - occupied hllset) in
  (m * ln (m / V))%R.

(** ** Views of ingestion used in the statements *)

#[global] Instance exn_eq_dec : EqDecision exn.
Proof. solve_decision. Defined.

#[global] Instance outcome_eq_dec `{EqDecision A} : EqDecision (outcome A).
Proof. solve_decision. Defined.

(** The tokens in the order in which the two nested loops of
    [ingest_dataset] meet them, each with the id of its document. *)
Fixpoint numbered {Document Token : Type} (tokenize : Document → list Token)
    (doc_id : nat) (documents : list Document) : list (nat * Token) :=
  match documents with
  | [] => []
  | document :: documents =>
      ((λ token, (doc_id, token)) <$> tokenize document)
      ++ numbered tokenize (S doc_id) documents
  end.

(** The frequencies and the documents of bucket [b], empty when the bucket
    or the key is missing. *)
Definition get_frequencies (hllset : HllSet) (b : Z) : list nat :=
  match hllset !! b with
  | Some bucket => default [] (frequencies bucket)
  | None => []
  end.

Definition get_documents (hllset : HllSet) (b : Z) : list nat :=
  match hllset !! b with
  | Some bucket => default [] (documents bucket)
  | None => []
  end.

(** Every bucket of the sketch holds at least one run. *)
Definition nonempty_buckets (hllset : HllSet) : Prop :=
  map_Forall (λ _ bucket, zeros bucket ≠ []) hllset.

(** The number of runs held by the sketch, over all its buckets. *)
Definition entries (hllset : HllSet) : nat :=
  sum_list_with (λ entry, length (zeros entry.2)) (map_to_list hllset).

(** Every bucket has its two metadata keys, as ingestion makes them. *)
Definition has_metadata (hllset : HllSet) : Prop :=
  map_Forall (λ _ bucket,
                is_Some (frequencies bucket) ∧ is_Some (documents bucket))
    hllset.

(** The value of the bucket index when no shift raises. *)
Definition bucket_of (hash_val p : Z) : Z :=
  Z.land (Z.shiftr hash_val (64 - p)) (Z.shiftl 1 p - 1).

(** What [record_pair] returns on a sketch that has its metadata. *)
Definition add_entry (hllset : HllSet) (b : Z) (z doc_id : nat) : HllSet :=
  <[b := mkBucket (get_zeros hllset b ++ [z])
           (Some (get_frequencies hllset b ++ [1]))
           (Some (get_documents hllset b ++ [doc_id]))]> hllset.

(** One turn of the token loop on a sketch that has its metadata, for the
    token [entry.2] of the document numbered [entry.1]. *)
Definition step {Token : Type} (hash_function : Token → Z)
    (count_trailing_zeros : Z → nat) (p : Z) (hllset : HllSet)
    (entry : nat * Token) : HllSet :=
  add_entry hllset (bucket_of (hash_function entry.2) p)
    (count_trailing_zeros (hash_function entry.2)) entry.1.

(** ** Concrete inputs to run the functions on *)

(** One ingested bucket: id [b], one run [z], seen once in document 0. *)
Definition one_bucket (b : Z) (z : nat) : HllSet :=
  {[ b := mkBucket [z] (Some [1]) (Some [0]) ]}.

(** The bucket [b] after two tokens with the run [z], both of document 0. *)
Definition repeated_bucket (b : Z) (z : nat) : HllSet :=
  {[ b := mkBucket [z; z] (Some [1; 1]) (Some [0; 0]) ]}.

(** An ingested sketch with the run 0 in the buckets 0 and 1. *)
Definition two_buckets : HllSet :=
  <[ 0%Z := mkBucket [0] (Some [1]) (Some [0]) ]> (one_bucket 1 0).

(** A trailing-zero counter for 64-bit hash values, to run ingestion with. *)
Fixpoint pos_trailing_zeros (n : positive) : nat :=
  match n with
  | xO n => S (pos_trailing_zeros n)
  | _ => 0
  end.

Definition trailing_zeros (hash_val : Z) : nat :=
  match hash_val with
  | Zpos n => pos_trailing_zeros n
  | _ => 64
  end.

(** Documents given as the lists of the hash values of their tokens. *)
Definition hashes (document : list Z) : list Z := document.
Definition hash_value (token : Z) : Z := token.

(** A hash value whose top bits are [0101 0...] and which ends in [100]. *)
Definition token52 : Z := 5 * 2 ^ 60 + 4.

(** ** One order of enumeration *)

(** One such order: members in the order of their first occurrence. *)
Lemma first_occurrence_intersection (l1 l2 : list nat) (x : nat) :
  x ∈ list_intersection (remove_dups l1) l2 ↔ x ∈ l1 ∧ x ∈ l2.
Proof. by rewrite list_elem_of_intersection, elem_of_remove_dups. Qed.

Lemma first_occurrence_difference (l1 l2 : list nat) (x : nat) :
  x ∈ list_difference (remove_dups l1) l2 ↔ x ∈ l1 ∧ x ∉ l2.
Proof. by rewrite list_elem_of_difference, elem_of_remove_dups. Qed.

Definition first_occurrence_order : SetOrder := {|
  list_set l := remove_dups l;
  list_set_intersection l1 l2 := list_intersection (remove_dups l1) l2;
  list_set_difference l1 l2 := list_difference (remove_dups l1) l2;
  NoDup_list_set l := NoDup_remove_dups l;
  elem_of_list_set l x := elem_of_remove_dups l x;
  NoDup_list_set_intersection l1 l2 :=
    NoDup_list_intersection _ l2 (NoDup_remove_dups l1);
  elem_of_list_set_intersection := first_occurrence_intersection;
  NoDup_list_set_difference l1 l2 :=
    NoDup_list_difference _ l2 (NoDup_remove_dups l1);
  elem_of_list_set_difference := first_occurrence_difference
|}.

(** ** Lookup in a filled dictionary *)

Lemma lookup_foldl_fill (body : Z → option Bucket) (keys : list Z)
    (acc : HllSet) (b : Z) :
  foldl (λ result b,
           match body b with
           | Some v => <[b := v]> result
           | None => result
           end) acc keys !! b
  = if decide (b ∈ keys)
    then match body b with Some v => Some v | None => acc !! b end
    else acc !! b.
Proof.
  revert acc. induction keys as [|k keys IH]; intros acc; cbn [foldl].
  - by rewrite decide_False by apply not_elem_of_nil.
  - rewrite IH. destruct (decide (k = b)) as [->|Hne].
    + rewrite (decide_True (P := b ∈ b :: keys)) by (apply elem_of_cons; auto).
      destruct (body b) as [v|] eqn:Hb.
      * rewrite lookup_insert_eq. by case_decide.
      * by case_decide.
    + destruct (decide (b ∈ keys)) as [Hin|Hnin].
      * rewrite (decide_True (P := b ∈ k :: keys)) by (apply elem_of_cons; auto).
        destruct (body b); [done|].
        destruct (body k); [by rewrite lookup_insert_ne|done].
      * rewrite (decide_False (P := b ∈ k :: keys))
          by (rewrite elem_of_cons; intros [?|?]; congruence).
        destruct (body k); [by rewrite lookup_insert_ne|done].
Qed.

Lemma lookup_fill (keys : list Z) (body : Z → option Bucket) (b : Z) :
  fill keys body !! b = if decide (b ∈ keys) then body b else None.
Proof.
  unfold fill. rewrite lookup_foldl_fill, lookup_empty.
  case_decide; [by destruct (body b)|done].
Qed.

Section Lookup.
Context `{SetOrder}.
Implicit Types A B C : HllSet.

Lemma lookup_union A B b :
  union A B !! b
  = if decide (b ∈ dom A ∪ dom B)
    then Some (mkBucket (list_set (get_zeros A b ++ get_zeros B b)) None None)
    else None.
Proof.
  unfold union. rewrite lookup_fill.
  destruct (decide (b ∈ dom A ∪ dom B)) as [Hin|Hnin].
  - by rewrite decide_True by by apply elem_of_elements.
  - by rewrite decide_False by by rewrite elem_of_elements.
Qed.

Lemma lookup_intersection A B b :
  intersection A B !! b
  = match A !! b, B !! b with
    | Some bucket1, Some bucket2 =>
        let common_zeros :=
          list_set_intersection (zeros bucket1) (zeros bucket2) in
        if truthy common_zeros
        then Some (mkBucket common_zeros None None)
        else None
    | _, _ => None
    end.
Proof.
  unfold intersection. rewrite lookup_fill.
  case_decide as Hin; [done|].
  rewrite elem_of_elements, elem_of_intersection, !elem_of_dom in Hin.
  destruct (A !! b), (B !! b); try done.
  exfalso. apply Hin. eauto.
Qed.

Lemma lookup_complement A B b :
  complement A B !! b
  = match A !! b with
    | Some bucket1 =>
        match B !! b with
        | None => Some bucket1
        | Some bucket2 =>
            let unique_zeros :=
              list_set_difference (zeros bucket1) (zeros bucket2) in
            if truthy unique_zeros
            then Some (mkBucket unique_zeros None None)
            else None
        end
    | None => None
    end.
Proof.
  unfold complement. rewrite lookup_fill.
  case_decide as Hin; [done|].
  rewrite elem_of_elements, elem_of_dom in Hin.
  destruct (A !! b); [|done].
  exfalso. apply Hin. eauto.
Qed.
End Lookup.

(** ** Buckets and runs of the three results *)

Lemma truthy_elem {A} (l : list A) : truthy l = true ↔ ∃ x, x ∈ l.
Proof.
  destruct l as [|x l]; simpl.
  - split; [done|]. by intros [x ?%elem_of_nil].
  - split; [|done]. intros _. exists x. apply elem_of_cons. auto.
Qed.

Lemma truthy_false {A} (l : list A) : truthy l = false ↔ l = [].
Proof. by destruct l. Qed.

Lemma zset_lookup (hllset : HllSet) (b : Z) :
  zset hllset b = default ∅ (content hllset !! b).
Proof.
  unfold zset, get_zeros, content. rewrite lookup_fmap.
  by destruct (hllset !! b).
Qed.

Lemma dom_content (hllset : HllSet) : dom (content hllset) = dom hllset.
Proof. unfold content. apply dom_fmap_L. Qed.

(** Two sketches have the same content when they have the same bucket ids
    and the same runs in each bucket. *)
Lemma content_eq (h1 h2 : HllSet) :
  dom h1 = dom h2 → (∀ b, zset h1 b = zset h2 b) → content h1 = content h2.
Proof.
  intros Hdom Hz. apply map_eq. intros b.
  specialize (Hz b). rewrite !zset_lookup in Hz.
  assert (Hb : b ∈ dom (content h1) ↔ b ∈ dom (content h2))
    by by rewrite !dom_content, Hdom.
  rewrite !elem_of_dom in Hb.
  destruct (content h1 !! b) as [s1|] eqn:E1,
           (content h2 !! b) as [s2|] eqn:E2; simpl in *.
  - by subst.
  - destruct Hb as [Hb _]. by destruct Hb as [? ?]; [eauto|].
  - destruct Hb as [_ Hb]. by destruct Hb as [? ?]; [eauto|].
  - done.
Qed.

Section Results.
Context `{SetOrder}.
Implicit Types A B C : HllSet.

Lemma dom_union A B : dom (union A B) = dom A ∪ dom B.
Proof.
  apply set_eq. intros b. rewrite elem_of_dom, lookup_union.
  case_decide; [by split; eauto|]. split; [by intros [? ?]|done].
Qed.

Lemma zset_union A B b : zset (union A B) b = zset A b ∪ zset B b.
Proof.
  unfold zset at 1. unfold get_zeros at 1. rewrite lookup_union.
  case_decide as Hin; simpl.
  - apply set_eq. intros z. unfold zset.
    rewrite elem_of_union, !elem_of_list_to_set, elem_of_list_set.
    apply elem_of_app.
  - rewrite elem_of_union, !elem_of_dom in Hin.
    unfold zset, get_zeros.
    destruct (A !! b); [exfalso; eauto|].
    destruct (B !! b); [exfalso; eauto|]. simpl. by rewrite (left_id_L ∅ (∪)).
Qed.

Lemma zset_intersection A B b :
  zset (intersection A B) b = zset A b ∩ zset B b.
Proof.
  unfold zset at 1. unfold get_zeros at 1. rewrite lookup_intersection.
  unfold zset, get_zeros.
  destruct (A !! b) as [b1|];
    [|simpl; by rewrite (left_absorb_L ∅ (∩))].
  destruct (B !! b) as [b2|];
    [|simpl; by rewrite (right_absorb_L ∅ (∩))]. cbv zeta.
  destruct (truthy _) eqn:Ht; simpl.
  - apply set_eq. intros z.
    by rewrite elem_of_intersection, !elem_of_list_to_set,
      elem_of_list_set_intersection.
  - apply truthy_false in Ht. apply set_eq. intros z.
    by rewrite elem_of_intersection, !elem_of_list_to_set,
      <- elem_of_list_set_intersection, Ht, elem_of_nil, elem_of_empty.
Qed.

Lemma elem_of_dom_intersection A B b :
  b ∈ dom (intersection A B) ↔ ∃ z, z ∈ zset A b ∧ z ∈ zset B b.
Proof.
  rewrite elem_of_dom, lookup_intersection. unfold zset, get_zeros.
  destruct (A !! b) as [b1|];
    [|split; [by intros [? ?]|by intros (z & ?%elem_of_empty & _)]].
  destruct (B !! b) as [b2|];
    [|split; [by intros [? ?]|by intros (z & _ & ?%elem_of_empty)]].
  cbv zeta. setoid_rewrite elem_of_list_to_set.
  setoid_rewrite <- elem_of_list_set_intersection.
  rewrite <- truthy_elem. destruct (truthy _); split; eauto.
  - by intros [? ?].
  - done.
Qed.

Lemma zset_complement A B b :
  zset (complement A B) b = zset A b ∖ zset B b.
Proof.
  unfold zset at 1. unfold get_zeros at 1. rewrite lookup_complement.
  unfold zset, get_zeros.
  destruct (A !! b) as [b1|]; [|simpl; by rewrite empty_difference_L].
  destruct (B !! b) as [b2|]; [|simpl; by rewrite difference_empty_L]. cbv zeta.
  destruct (truthy _) eqn:Ht; simpl.
  - apply set_eq. intros z.
    by rewrite elem_of_difference, !elem_of_list_to_set,
      elem_of_list_set_difference.
  - apply truthy_false in Ht. apply set_eq. intros z.
    by rewrite elem_of_difference, !elem_of_list_to_set,
      <- elem_of_list_set_difference, Ht, elem_of_nil, elem_of_empty.
Qed.

Lemma elem_of_dom_complement A B b :
  b ∈ dom (complement A B)
  ↔ b ∈ dom A ∧ (b ∉ dom B ∨ ∃ z, z ∈ zset A b ∧ z ∉ zset B b).
Proof.
  rewrite !elem_of_dom, lookup_complement.
  unfold zset, get_zeros.
  destruct (A !! b) as [b1|]; [|split; [by intros [? ?]|by intros [[? ?] _]]].
  destruct (B !! b) as [b2|].
  - cbv zeta. setoid_rewrite elem_of_list_to_set.
    setoid_rewrite <- elem_of_list_set_difference.
    rewrite <- truthy_elem. destruct (truthy _); split; eauto.
    + by intros [? ?].
    + intros [_ [Hn|?]]; [|done]. exfalso. apply Hn. eauto.
  - split; [|eauto]. intros _. split; [eauto|]. left. by intros [? ?].
Qed.
End Results.

(** ** Facts about the concrete sketches *)

Lemma zset_one_bucket b z : zset (one_bucket b z) b = {[ z ]}.
Proof.
  unfold zset, get_zeros, one_bucket. rewrite lookup_singleton_eq. simpl.
  apply (right_id_L ∅ (∪)).
Qed.

Lemma zset_one_bucket_ne b b' z : b ≠ b' → zset (one_bucket b z) b' = ∅.
Proof.
  intros Hne. unfold zset, get_zeros, one_bucket.
  by rewrite lookup_singleton_ne.
Qed.

(** ** The algebra of the three operations *)

Section AlgebraLaws.
Context `{SetOrder}.
Implicit Types A B C : HllSet.

Lemma union_empty_r A : union A ∅ = zeros_only <$> A.
Proof.
  apply map_eq. intros b. rewrite lookup_union, lookup_fmap.
  rewrite dom_empty_L, (right_id_L ∅ (∪)).
  unfold get_zeros at 2. rewrite lookup_empty, app_nil_r.
  unfold get_zeros. case_decide as Hin.
  - apply elem_of_dom in Hin as [bucket ->]. done.
  - apply not_elem_of_dom in Hin. by rewrite Hin.
Qed.

Lemma complement_diag A : complement A A = ∅.
Proof.
  apply map_eq. intros b. rewrite lookup_complement, lookup_empty.
  destruct (A !! b) as [bucket|]; [|done]. cbv zeta.
  destruct (truthy _) eqn:Ht; [|done].
  apply truthy_elem in Ht as [z Hz].
  apply elem_of_list_set_difference in Hz. by destruct Hz.
Qed.

Lemma complement_disjoint_dom A B : dom A ## dom B → complement A B = A.
Proof.
  intros Hd. apply map_eq. intros b. rewrite lookup_complement.
  destruct (A !! b) as [b1|] eqn:EA; [|done].
  destruct (B !! b) as [b2|] eqn:EB; [|done].
  exfalso. apply (Hd b); apply elem_of_dom; eauto.
Qed.

Lemma complement_absent A B b : b ∉ dom B → complement A B !! b = A !! b.
Proof.
  intros Hb%not_elem_of_dom. rewrite lookup_complement, Hb.
  by destruct (A !! b).
Qed.

Lemma union_zeros_only A B :
  map_Forall (λ _ bucket, frequencies bucket = None ∧ documents bucket = None)
    (union A B).
Proof.
  intros b bucket. rewrite lookup_union.
  case_decide; [|done]. by intros [= <-].
Qed.

Lemma intersection_zeros_only A B :
  map_Forall (λ _ bucket, frequencies bucket = None ∧ documents bucket = None)
    (intersection A B).
Proof.
  intros b bucket. rewrite lookup_intersection.
  destruct (A !! b); [|done]. destruct (B !! b); [|done]. cbv zeta.
  destruct (truthy _); [|done]. by intros [= <-].
Qed.

Lemma dom_intersection_subseteq A B :
  dom (intersection A B) ⊆ dom A ∩ dom B.
Proof.
  intros b. rewrite elem_of_intersection, !elem_of_dom, lookup_intersection.
  destruct (A !! b); [|by intros [? ?]].
  destruct (B !! b); [|by intros [? ?]]. eauto.
Qed.

Lemma dom_complement_subseteq A B : dom (complement A B) ⊆ dom A.
Proof. intros b. rewrite elem_of_dom_complement. by intros [? _]. Qed.

Lemma dom_intersection_comm A B :
  dom (intersection A B) = dom (intersection B A).
Proof.
  apply set_eq. intros b. rewrite !elem_of_dom_intersection.
  split; intros (z & ? & ?); eauto.
Qed.

Lemma dom_intersection_assoc A B C :
  dom (intersection (intersection A B) C)
  = dom (intersection A (intersection B C)).
Proof.
  apply set_eq. intros b. rewrite !elem_of_dom_intersection.
  setoid_rewrite zset_intersection. setoid_rewrite elem_of_intersection.
  split.
  - intros (z & [? ?] & ?); eauto.
  - intros (z & ? & [? ?]); eauto.
Qed.
End AlgebraLaws.

(** ** Properties of the set algebra *)

Section Claims.
Context `{SetOrder}.
Implicit Types A B C : HllSet.

(** C4, as amended: [union(A, empty)] has the bucket ids of [A] and, in
    each bucket, the runs of [A]'s bucket once each, so the same runs as a
    set; the record holds nothing but ["zeros"]: the frequencies and the
    documents of [A] are not copied. *)
Theorem union_empty_keeps_runs A :
  union A ∅ = zeros_only <$> A ∧ content (union A ∅) = content A.
Proof.
  split; [apply union_empty_r|].
  apply content_eq.
  - by rewrite dom_union, dom_empty_L, (right_id_L ∅ (∪)).
  - intros b. rewrite zset_union. unfold zset at 2, get_zeros.
    rewrite lookup_empty. apply (right_id_L ∅ (∪)).
Qed.

(** C5, as amended: [complement(A, A)] is the empty sketch; for disjoint
    [A] and [B], [complement(A, B)] records in every bucket the runs of
    [A], compared as sets; and it is [A] itself when [A] and [B] share no
    bucket id. *)
Theorem complement_self_and_disjoint A B :
  disjoint_sketches A B →
  complement A A = ∅
  ∧ (∀ b, zset (complement A B) b = zset A b)
  ∧ (dom A ## dom B → complement A B = A).
Proof.
  intros Hd. split; [apply complement_diag|]. split.
  - intros b. rewrite zset_complement. specialize (Hd b).
    apply set_eq. intros z. rewrite elem_of_difference.
    split; [by intros [? _]|]. intros Hz. split; [done|].
    intros Hz'. by apply (Hd z).
  - apply complement_disjoint_dom.
Qed.

(** C6: [union] and [intersection] are commutative and associative, the
    contents of each bucket being compared as sets. *)
Theorem union_intersection_comm_assoc A B C :
  content (union A B) = content (union B A)
  ∧ content (intersection A B) = content (intersection B A)
  ∧ content (union (union A B) C) = content (union A (union B C))
  ∧ content (intersection (intersection A B) C)
    = content (intersection A (intersection B C)).
Proof.
  repeat split; apply content_eq.
  - rewrite !dom_union. apply (comm_L (∪)).
  - intros b. rewrite !zset_union. apply (comm_L (∪)).
  - apply dom_intersection_comm.
  - intros b. rewrite !zset_intersection. apply (comm_L (∩)).
  - rewrite !dom_union. symmetry. apply (assoc_L (∪)).
  - intros b. rewrite !zset_union. symmetry. apply (assoc_L (∪)).
  - apply dom_intersection_assoc.
  - intros b. rewrite !zset_intersection. symmetry. apply (assoc_L (∩)).
Qed.

(** C7: [jaccard_similarity] of two empty sketches returns the number 0:
    the division is not attempted when the union has no bucket. *)
Theorem jaccard_similarity_empty :
  jaccard_similarity ∅ ∅ = Returns 0%Q.
Proof.
  unfold jaccard_similarity.
  rewrite union_empty_r, fmap_empty, map_size_empty.
  by rewrite decide_False by lia.
Qed.

(** C9: every bucket of [union(A, B)] and of [intersection(A, B)] holds
    ["zeros"] and no frequencies or documents, whereas [complement(A, B)]
    hands over the whole record of a bucket that [B] does not have. *)
Theorem results_hold_zeros_only A B :
  map_Forall (λ _ bucket, frequencies bucket = None ∧ documents bucket = None)
    (union A B)
  ∧ map_Forall
      (λ _ bucket, frequencies bucket = None ∧ documents bucket = None)
      (intersection A B)
  ∧ (∀ b, b ∉ dom B → complement A B !! b = A !! b).
Proof.
  split; [apply union_zeros_only|].
  split; [apply intersection_zeros_only|].
  intros b. apply complement_absent.
Qed.

(** C10: no operation invents a bucket: the ids of [union(A, B)] are ids
    of [A] or of [B], those of [intersection(A, B)] are ids of both, and
    those of [complement(A, B)] are ids of [A]. *)
Theorem no_invented_buckets A B :
  dom (union A B) ⊆ dom A ∪ dom B
  ∧ dom (intersection A B) ⊆ dom A ∩ dom B
  ∧ dom (complement A B) ⊆ dom A.
Proof.
  split; [by rewrite dom_union|].
  split; [apply dom_intersection_subseteq|apply dom_complement_subseteq].
Qed.

Lemma jaccard_similarity_unfold A B :
  jaccard_similarity A B
  = Returns (if decide (size (union A B) = 0) then 0%Q
             else (Z.of_nat (size (intersection A B))
                   # Pos.of_nat (size (union A B)))%Q).
Proof.
  unfold jaccard_similarity, truediv.
  destruct (decide (size (union A B) = 0)) as [->|Hne].
  - by rewrite decide_False by lia.
  - by rewrite decide_True by lia.
Qed.

(** C1, as amended: [jaccard_similarity(A, B)] returns the number of
    buckets of [intersection(A, B)] divided by the number of buckets of
    [union(A, B)], that is of bucket ids of [A] or [B], and returns 0 when
    the union has no bucket. *)
Theorem jaccard_similarity_bucket_ratio A B :
  jaccard_similarity A B
  = Returns (if decide (size (union A B) = 0) then 0%Q
             else (Z.of_nat (size (intersection A B))
                   # Pos.of_nat (size (union A B)))%Q)
  ∧ size (union A B) = size (dom A ∪ dom B).
Proof.
  split; [apply jaccard_similarity_unfold|].
  by rewrite <- dom_union, size_dom.
Qed.
End Claims.

(** ** Properties of ingestion *)

Lemma bucket_index_returns (hash_val p : Z) :
  (0 ≤ p ≤ 64)%Z →
  bucket_index hash_val p
  = Returns (Z.land (Z.shiftr hash_val (64 - p)) (Z.shiftl 1 p - 1)).
Proof.
  intros Hp. unfold bucket_index, rshift, lshift.
  rewrite decide_False by lia. simpl. by rewrite decide_False by lia.
Qed.

Lemma bucket_index_value (hash_val p : Z) :
  (0 ≤ hash_val < 2 ^ 64)%Z → (0 ≤ p ≤ 64)%Z →
  Z.land (Z.shiftr hash_val (64 - p)) (Z.shiftl 1 p - 1)
  = Z.shiftr hash_val (64 - p).
Proof.
  intros Hh Hp.
  rewrite Z.shiftl_1_l, Z.sub_1_r, <- Z.ones_equiv, Z.land_ones by lia.
  apply Z.mod_small. rewrite Z.shiftr_div_pow2 by lia. split.
  - apply Z.div_pos; lia.
  - apply Z.div_lt_upper_bound; [lia|].
    rewrite <- Z.pow_add_r by lia.
    replace (64 - p + p)%Z with 64%Z by lia. lia.
Qed.

(** C8: for a 64-bit hash value and a precision [p] (a number of bits of
    that hash, from 0 to 64), the bucket index computed at ingestion is the
    top [p] bits of the hash, an unsigned integer in [[0, 2^p)]. *)
Theorem bucket_index_top_bits (hash_val p : Z) :
  (0 ≤ hash_val < 2 ^ 64)%Z → (0 ≤ p ≤ 64)%Z →
  ∃ b, bucket_index hash_val p = Returns b
       ∧ b = (hash_val / 2 ^ (64 - p))%Z
       ∧ (0 ≤ b < 2 ^ p)%Z
       ∧ ∀ i, (0 ≤ i < p)%Z →
              Z.testbit b i = Z.testbit hash_val (i + (64 - p)).
Proof.
  intros Hh Hp. exists (Z.shiftr hash_val (64 - p)).
  split; [by rewrite bucket_index_returns, bucket_index_value|].
  rewrite Z.shiftr_div_pow2 by lia. split; [done|]. split.
  - split; [apply Z.div_pos; lia|].
    apply Z.div_lt_upper_bound; [lia|].
    rewrite <- Z.pow_add_r by lia.
    replace (64 - p + p)%Z with 64%Z by lia. lia.
  - intros i Hi. rewrite <- Z.shiftr_div_pow2 by lia.
    apply Z.shiftr_spec. lia.
Qed.

Lemma content_insert_recorded (hllset : HllSet) (b : Z) (bucket bucket' : Bucket) :
  hllset !! b = Some bucket →
  list_to_set (C := gset nat) (zeros bucket')
  = list_to_set (zeros bucket) →
  content (<[b := bucket']> hllset) = content hllset.
Proof.
  intros Hb Hz. unfold content. rewrite fmap_insert, Hz.
  apply insert_id. by rewrite lookup_fmap, Hb.
Qed.

Lemma record_pair_recorded (hllset : HllSet) (b : Z) (z doc_id : nat)
    (zs fs ds : list nat) :
  hllset !! b = Some (mkBucket zs (Some fs) (Some ds)) →
  record_pair hllset b z doc_id
  = Returns (<[b := mkBucket (zs ++ [z]) (Some (fs ++ [1]))
                       (Some (ds ++ [doc_id]))]> hllset).
Proof. intros Hb. unfold record_pair. by rewrite !Hb. Qed.

Section IngestionClaims.
Context {Document Token : Type}.
Variable tokenize : Document → list Token.
Variable hash_function : Token → Z.
Variable count_trailing_zeros : Z → nat.

(** C2, as amended: ingesting a further occurrence of an item whose
    (bucket, run) pair is already recorded leaves the recorded pairs
    unchanged, every bucket compared as a set of runs; the lists of the
    bucket are not unchanged: the run, a frequency 1 and the document id
    are appended to them. *)
Theorem second_occurrence_keeps_pairs (p : Z) (doc_id : nat)
    (hllset : HllSet) (token : Token) (b : Z) (zs fs ds : list nat) :
  bucket_index (hash_function token) p = Returns b →
  hllset !! b = Some (mkBucket zs (Some fs) (Some ds)) →
  count_trailing_zeros (hash_function token) ∈ zs →
  ∃ hllset',
    ingest_token hash_function count_trailing_zeros p doc_id hllset token
    = Returns hllset'
    ∧ hllset' !! b
      = Some (mkBucket (zs ++ [count_trailing_zeros (hash_function token)])
                (Some (fs ++ [1])) (Some (ds ++ [doc_id])))
    ∧ (∀ b', b' ≠ b → hllset' !! b' = hllset !! b')
    ∧ content hllset' = content hllset.
Proof.
  intros Hidx Hb Hz. eexists. unfold ingest_token.
  rewrite Hidx. simpl. rewrite (record_pair_recorded _ _ _ _ _ _ _ Hb).
  split; [done|]. split; [by rewrite lookup_insert_eq|].
  split; [by intros b' Hne; rewrite lookup_insert_ne|].
  apply (content_insert_recorded _ _ _ _ Hb). simpl.
  apply set_eq. intros x.
  rewrite !elem_of_list_to_set, elem_of_app, list_elem_of_singleton.
  split; [intros [?| ->]; done|auto].
Qed.

(** C3, as amended: the operations make no compatibility check and
    coerce nothing: on operands ingested with any two precisions they
    return a sketch made of the bucket ids of the operands as they stand,
    with in each bucket the union, the intersection or the difference of
    the runs of the two operands. *)
Theorem operations_accept_any_precisions `{SetOrder}
    (documents1 documents2 : list Document) (p1 p2 : Z) (A B : HllSet) :
  ingest_dataset tokenize hash_function count_trailing_zeros documents1 p1
  = Returns A →
  ingest_dataset tokenize hash_function count_trailing_zeros documents2 p2
  = Returns B →
  dom (union A B) = dom A ∪ dom B
  ∧ (∀ b, zset (union A B) b = zset A b ∪ zset B b)
  ∧ (∀ b, zset (intersection A B) b = zset A b ∩ zset B b)
  ∧ (∀ b, zset (complement A B) b = zset A b ∖ zset B b).
Proof.
  intros _ _. split; [apply dom_union|].
  split; [intros b; apply zset_union|].
  split; [intros b; apply zset_intersection|intros b; apply zset_complement].
Qed.
End IngestionClaims.

(** ** The functions run on concrete inputs *)

Example ingest_token52_p4 :
  ingest_dataset hashes hash_value trailing_zeros [[token52]] 4
  = Returns (one_bucket 5 2).
Proof. reflexivity. Qed.

Example ingest_token52_p5 :
  ingest_dataset hashes hash_value trailing_zeros [[token52]] 5
  = Returns (one_bucket 10 2).
Proof. reflexivity. Qed.

Example jaccard_one_two :
  @jaccard_similarity first_occurrence_order (one_bucket 0 0) two_buckets
  = Returns (1 # 2)%Q.
Proof. vm_compute. reflexivity. Qed.

Example bucket_index_negative_precision :
  bucket_index token52 (-1) = Raises ValueError
  ∧ bucket_index token52 65 = Raises ValueError.
Proof. split; reflexivity. Qed.

Lemma singleton_order (l : list nat) (a : nat) :
  NoDup l → (∀ x, x ∈ l ↔ x = a) → l = [a].
Proof.
  intros Hnd Hl. destruct l as [|x l].
  - exfalso. apply (not_elem_of_nil a). by apply Hl.
  - assert (x = a) as -> by (apply Hl, elem_of_cons; auto).
    destruct l as [|y l]; [done|].
    assert (y = a) as -> by (apply Hl; rewrite !elem_of_cons; auto).
    exfalso. apply NoDup_cons in Hnd as [Hnd _]. apply Hnd, elem_of_cons. auto.
Qed.

Lemma intersection_one_two `{SetOrder} :
  intersection (one_bucket 0 0) two_buckets = {[ 0%Z := mkBucket [0] None None ]}.
Proof.
  apply map_eq. intros b. rewrite lookup_intersection.
  unfold two_buckets, one_bucket. destruct (decide (b = 0%Z)) as [->|Hne].
  - rewrite !lookup_singleton_eq, lookup_insert_eq. cbv zeta. simpl zeros.
    rewrite (singleton_order (list_set_intersection [0] [0]) 0).
    + done.
    + apply NoDup_list_set_intersection.
    + intros x. rewrite elem_of_list_set_intersection, list_elem_of_singleton.
      tauto.
  - by rewrite !lookup_singleton_ne by done.
Qed.

Lemma union_one_two `{SetOrder} :
  union (one_bucket 0 0) two_buckets
  = <[ 0%Z := mkBucket [0] None None ]> {[ 1%Z := mkBucket [0] None None ]}.
Proof.
  assert (Hset : ∀ l, (∀ x, x ∈ l ↔ x = 0) → list_set l = [0]).
  { intros l Hl. apply singleton_order; [apply NoDup_list_set|].
    intros x. by rewrite elem_of_list_set. }
  apply map_eq. intros b. rewrite lookup_union. unfold get_zeros.
  destruct (decide (b ∈ _)) as [Hin|Hnin];
    rewrite elem_of_union, !elem_of_dom in *;
    unfold two_buckets, one_bucket in *;
    destruct (decide (b = 0%Z)) as [->|Hne0].
  - rewrite !lookup_singleton_eq, !lookup_insert_eq. simpl.
    rewrite Hset; [done|].
    intros x. rewrite !elem_of_cons, elem_of_nil. tauto.
  - rewrite (lookup_singleton_ne 0%Z b) in * by done.
    rewrite !(lookup_insert_ne _ 0%Z b) in * by done.
    destruct (decide (b = 1%Z)) as [->|Hne1].
    + rewrite !lookup_singleton_eq. simpl.
      rewrite Hset; [done|]. intros x. apply list_elem_of_singleton.
    + rewrite !lookup_singleton_ne in Hin by done.
      by destruct Hin as [[? ?]|[? ?]].
  - exfalso. apply Hnin. left. rewrite lookup_singleton_eq. eauto.
  - rewrite !(lookup_insert_ne _ 0%Z b) in * by done.
    destruct (decide (b = 1%Z)) as [->|Hne1].
    + exfalso. apply Hnin. right. rewrite lookup_singleton_eq. eauto.
    + by rewrite lookup_singleton_ne.
Qed.

Lemma linear_counting_ratio_not_half :
  (1 / 2 ≠ (16 * ln (16 / 15)) / (16 * ln (16 / 14)))%R.
Proof.
  intros Heq.
  assert (Hc : (0 < ln (16 / 14))%R).
  { rewrite <- ln_1. apply ln_increasing; lra. }
  assert (H2 : (ln (16 / 14) = ln (16 / 15) + ln (16 / 15))%R).
  { apply (Rmult_eq_compat_r (2 * ln (16 / 14))%R) in Heq.
    field_simplify in Heq; lra. }
  rewrite <- ln_mult in H2 by lra.
  apply ln_inv in H2; lra.
Qed.

(** C1, counterexample: of the sketches [{0: [0]}] and [{0: [0], 1: [0]}],
    ingested with precision 4, the intersection has one bucket and the union
    two, so [jaccard_similarity] returns 1/2, whatever the order of the
    lists; the estimated cardinalities are [16 ln (16/15)] and
    [16 ln (16/14)], whose ratio is not 1/2. *)
Lemma jaccard_is_not_count_ratio :
  ¬ ∃ (O : SetOrder) (q : Q),
      @jaccard_similarity O (one_bucket 0 0) two_buckets = Returns q
      ∧ Q2R q
        = (count_small_range 4 (@intersection O (one_bucket 0 0) two_buckets)
           / count_small_range 4 (@union O (one_bucket 0 0) two_buckets))%R.
Proof.
  intros (O & q & Hj & Hq).
  rewrite jaccard_similarity_unfold in Hj.
  rewrite intersection_one_two, union_one_two in Hj, Hq.
  assert (q = (1 # 2)%Q) as -> by (injection Hj as <-; reflexivity).
  apply linear_counting_ratio_not_half.
  unfold count_small_range in Hq.
  change (occupied {[ 0%Z := mkBucket [0] None None ]}) with 1 in Hq.
  change (occupied (<[ 0%Z := mkBucket [0] None None ]>
                      {[ 1%Z := mkBucket [0] None None ]})) with 2 in Hq.
  assert (E16 : INR (2 ^ 4) = 16%R) by (simpl; lra).
  assert (E15 : INR (2 ^ 4 - 1) = 15%R) by (simpl; lra).
  assert (E14 : INR (2 ^ 4 - 2) = 14%R) by (simpl; lra).
  cbv zeta in Hq. rewrite E16, E15, E14 in Hq.
  rewrite <- Hq. unfold Q2R. simpl. lra.
Qed.

(** C2, counterexample: the pair [(5, 2)] is recorded by the first
    occurrence of the token, and the second occurrence changes bucket 5: its
    three lists grow. *)
Lemma second_occurrence_changes_bucket :
  ingest_dataset hashes hash_value trailing_zeros [[token52]] 4
  = Returns (one_bucket 5 2)
  ∧ recorded (one_bucket 5 2) 5 2
  ∧ ingest_token hash_value trailing_zeros 4 0 (one_bucket 5 2) token52
    = Returns {[ 5%Z := mkBucket [2; 2] (Some [1; 1]) (Some [0; 0]) ]}
  ∧ ingest_dataset hashes hash_value trailing_zeros [[token52; token52]] 4
    ≠ ingest_dataset hashes hash_value trailing_zeros [[token52]] 4.
Proof.
  split; [reflexivity|]. split.
  - unfold recorded, get_zeros, one_bucket. rewrite lookup_singleton_eq.
    apply elem_of_cons. auto.
  - split; [reflexivity|]. intros Heq. vm_compute in Heq. discriminate Heq.
Qed.

(** C2, witness. *)
Lemma second_occurrence_keeps_pairs_witness :
  ∃ hllset',
    ingest_token hash_value trailing_zeros 4 0 (one_bucket 5 2) token52
    = Returns hllset'
    ∧ hllset' !! 5%Z
      = Some (mkBucket ([2] ++ [trailing_zeros (hash_value token52)])
                (Some ([1] ++ [1])) (Some ([0] ++ [0])))
    ∧ (∀ b', b' ≠ 5%Z → hllset' !! b' = one_bucket 5 2 !! b')
    ∧ content hllset' = content (one_bucket 5 2).
Proof.
  apply (second_occurrence_keeps_pairs hash_value trailing_zeros
           4 0 (one_bucket 5 2) token52 5 [2] [1] [0]).
  - reflexivity.
  - reflexivity.
  - apply elem_of_cons. left. reflexivity.
Defined.

(** C3, counterexample: the same document ingested with precisions 4 and 5
    gives two sketches, and the three operations applied to them return
    sketches; no error is raised. *)
Lemma mixed_precisions_return_sketches :
  (do A <- ingest_dataset hashes hash_value trailing_zeros [[token52]] 4;
   do B <- ingest_dataset hashes hash_value trailing_zeros [[token52]] 5;
   Returns (@union first_occurrence_order A B,
            @intersection first_occurrence_order A B,
            @complement first_occurrence_order A B))
  = Returns ({[ 5%Z := mkBucket [2] None None;
                10%Z := mkBucket [2] None None ]},
             ∅,
             one_bucket 5 2).
Proof. vm_compute. reflexivity. Qed.

(** C3, witness. *)
Lemma operations_accept_any_precisions_witness :
  ingest_dataset hashes hash_value trailing_zeros [[token52]] 4
  = Returns (one_bucket 5 2)
  ∧ ingest_dataset hashes hash_value trailing_zeros [[token52]] 5
    = Returns (one_bucket 10 2)
  ∧ dom (@union first_occurrence_order (one_bucket 5 2) (one_bucket 10 2))
    = dom (one_bucket 5 2) ∪ dom (one_bucket 10 2).
Proof.
  split; [reflexivity|]. split; [reflexivity|].
  apply (operations_accept_any_precisions hashes hash_value trailing_zeros
           (H := first_occurrence_order) [[token52]] [[token52]] 4 5
           (one_bucket 5 2) (one_bucket 10 2)); reflexivity.
Defined.

(** C4, counterexample: whatever the order of the lists, [union(A, empty)]
    is not [A] for an ingested [A]: the frequencies are gone. *)
Lemma union_empty_drops_metadata :
  ¬ ∃ O : SetOrder, @union O (one_bucket 3 2) ∅ = one_bucket 3 2.
Proof.
  intros [O HO]. rewrite union_empty_r in HO.
  apply (f_equal (λ m, m !! 3%Z)) in HO. unfold one_bucket in HO.
  rewrite lookup_fmap, lookup_singleton_eq in HO. discriminate HO.
Qed.

(** C5, counterexample: two sketches with the same bucket id and different
    runs are disjoint, and their complement is not the first one, whatever
    the order of the lists: the frequencies and documents are gone. *)
Lemma complement_disjoint_drops_metadata :
  disjoint_sketches (one_bucket 0 1) (one_bucket 0 2)
  ∧ ¬ ∃ O : SetOrder,
        @complement O (one_bucket 0 1) (one_bucket 0 2) = one_bucket 0 1.
Proof.
  split.
  - intros b. destruct (decide (b = 0%Z)) as [->|Hne].
    + rewrite !zset_one_bucket. intros z.
      rewrite !elem_of_singleton. lia.
    + rewrite zset_one_bucket_ne by done. intros z Hz. by apply elem_of_empty in Hz.
  - intros [O HO]. apply (f_equal (λ m, m !! 0%Z)) in HO.
    rewrite lookup_complement in HO. unfold one_bucket in HO.
    rewrite !lookup_singleton_eq in HO. cbv zeta in HO.
    destruct (truthy _); discriminate HO.
Qed.

(** C5, witness. *)
Lemma complement_self_and_disjoint_witness :
  disjoint_sketches (one_bucket 0 1) (one_bucket 0 2)
  ∧ @complement first_occurrence_order (one_bucket 0 1) (one_bucket 0 1) = ∅
  ∧ zset (@complement first_occurrence_order (one_bucket 0 1) (one_bucket 0 2)) 0
    = zset (one_bucket 0 1) 0.
Proof.
  assert (Hd : disjoint_sketches (one_bucket 0 1) (one_bucket 0 2)).
  { intros b. destruct (decide (b = 0%Z)) as [->|Hne].
    - rewrite !zset_one_bucket. intros z. rewrite !elem_of_singleton. lia.
    - rewrite zset_one_bucket_ne by done. intros z Hz.
      by apply elem_of_empty in Hz. }
  split; [exact Hd|].
  destruct (complement_self_and_disjoint (H := first_occurrence_order)
              (one_bucket 0 1) (one_bucket 0 2) Hd) as (Hself & Hz & _).
  split; [exact Hself|exact (Hz 0%Z)].
Defined.

(** C8, witness. *)
Lemma bucket_index_top_bits_witness :
  (0 ≤ token52 < 2 ^ 64)%Z ∧ (0 ≤ 4 ≤ 64)%Z
  ∧ ∃ b, bucket_index token52 4 = Returns b
         ∧ b = (token52 / 2 ^ (64 - 4))%Z
         ∧ (0 ≤ b < 2 ^ 4)%Z
         ∧ ∀ i, (0 ≤ i < 4)%Z →
                Z.testbit b i = Z.testbit token52 (i + (64 - 4)).
Proof.
  assert (Hh : (0 ≤ token52 < 2 ^ 64)%Z) by (unfold token52; lia).
  assert (Hp : (0 ≤ 4 ≤ 64)%Z) by lia.
  split; [exact Hh|]. split; [exact Hp|].
  exact (bucket_index_top_bits token52 4 Hh Hp).
Defined.

(** C9, witness. *)
Lemma results_hold_zeros_only_witness :
  (5%Z ∉ dom (one_bucket 10 2))
  ∧ (@complement first_occurrence_order (one_bucket 5 2) (one_bucket 10 2))
      !! 5%Z
    = one_bucket 5 2 !! 5%Z.
Proof.
  assert (Hb : 5%Z ∉ dom (one_bucket 10 2)).
  { unfold one_bucket. rewrite dom_singleton_L, elem_of_singleton. lia. }
  split; [exact Hb|].
  destruct (results_hold_zeros_only (H := first_occurrence_order)
              (one_bucket 5 2) (one_bucket 10 2)) as (_ & _ & Hc).
  exact (Hc 5%Z Hb).
Defined.

(** ** Ingestion as a fold over the numbered tokens *)

Lemma record_pair_add_entry (hllset : HllSet) (b : Z) (z doc_id : nat) :
  has_metadata hllset →
  record_pair hllset b z doc_id = Returns (add_entry hllset b z doc_id).
Proof.
  intros Hm. unfold record_pair, add_entry, get_zeros, get_frequencies,
    get_documents.
  destruct (hllset !! b) as [bucket|] eqn:Hb.
  - rewrite Hb. destruct (Hm b bucket Hb) as [[fs Hfs] [ds Hds]].
    by rewrite Hfs, Hds.
  - rewrite lookup_insert_eq. simpl. by rewrite insert_insert_eq.
Qed.

Lemma has_metadata_add_entry (hllset : HllSet) (b : Z) (z doc_id : nat) :
  has_metadata hllset → has_metadata (add_entry hllset b z doc_id).
Proof.
  intros Hm. apply map_Forall_insert_2; [|done]. simpl. eauto.
Qed.

Lemma get_zeros_add_entry (hllset : HllSet) (b b' : Z) (z doc_id : nat) :
  get_zeros (add_entry hllset b z doc_id) b'
  = get_zeros hllset b' ++ (if decide (b = b') then [z] else []).
Proof.
  unfold add_entry. unfold get_zeros at 1. case_decide as Hb.
  - subst. by rewrite lookup_insert_eq.
  - rewrite lookup_insert_ne, app_nil_r by done. done.
Qed.

Lemma get_frequencies_add_entry (hllset : HllSet) (b b' : Z) (z doc_id : nat) :
  get_frequencies (add_entry hllset b z doc_id) b'
  = get_frequencies hllset b' ++ (if decide (b = b') then [1] else []).
Proof.
  unfold add_entry. unfold get_frequencies at 1. case_decide as Hb.
  - subst. by rewrite lookup_insert_eq.
  - rewrite lookup_insert_ne, app_nil_r by done. done.
Qed.

Lemma get_documents_add_entry (hllset : HllSet) (b b' : Z) (z doc_id : nat) :
  get_documents (add_entry hllset b z doc_id) b'
  = get_documents hllset b' ++ (if decide (b = b') then [doc_id] else []).
Proof.
  unfold add_entry. unfold get_documents at 1. case_decide as Hb.
  - subst. by rewrite lookup_insert_eq.
  - rewrite lookup_insert_ne, app_nil_r by done. done.
Qed.

Lemma dom_add_entry (hllset : HllSet) (b : Z) (z doc_id : nat) :
  dom (add_entry hllset b z doc_id) = {[ b ]} ∪ dom hllset.
Proof. unfold add_entry. apply dom_insert_L. Qed.

Lemma bucket_index_invalid (hash_val p : Z) :
  ¬ (0 ≤ p ≤ 64)%Z → bucket_index hash_val p = Raises ValueError.
Proof.
  intros Hp. unfold bucket_index, rshift, lshift.
  destruct (decide (64 - p < 0)%Z); [done|]. simpl.
  by rewrite decide_True by lia.
Qed.

Lemma bucket_index_bucket_of (hash_val p b : Z) :
  (0 ≤ p ≤ 64)%Z →
  bucket_index hash_val p = Returns b ↔ bucket_of hash_val p = b.
Proof.
  intros Hp. rewrite bucket_index_returns by done. unfold bucket_of.
  split; [by intros [= ?]|by intros ->].
Qed.

Lemma bucket_of_range (hash_val p : Z) :
  (0 ≤ p)%Z → (0 ≤ bucket_of hash_val p < 2 ^ p)%Z.
Proof.
  intros Hp. unfold bucket_of.
  rewrite Z.shiftl_1_l, Z.sub_1_r, <- Z.ones_equiv, Z.land_ones by lia.
  apply Z.mod_pos_bound. lia.
Qed.

Section IngestionFold.
Context {Document Token : Type}.
Variable tokenize : Document → list Token.
Variable hash_function : Token → Z.
Variable count_trailing_zeros : Z → nat.

#[local] Abbreviation step := (step hash_function count_trailing_zeros).

Lemma has_metadata_foldl_step p hllset es :
  has_metadata hllset → has_metadata (foldl (step p) hllset es).
Proof.
  revert hllset. induction es as [|e es IH]; intros hllset Hm; [done|].
  simpl. apply IH. by apply has_metadata_add_entry.
Qed.

Lemma ingest_tokens_fold p doc_id hllset tokens :
  (0 ≤ p ≤ 64)%Z → has_metadata hllset →
  ingest_tokens hash_function count_trailing_zeros p doc_id hllset tokens
  = Returns (foldl (step p) hllset ((λ token, (doc_id, token)) <$> tokens)).
Proof.
  intros Hp. revert hllset.
  induction tokens as [|token tokens IH]; intros hllset Hm; [done|].
  simpl. unfold ingest_token. rewrite bucket_index_returns by done. simpl.
  rewrite record_pair_add_entry by done. simpl.
  rewrite IH by by apply has_metadata_add_entry. done.
Qed.

Lemma ingest_documents_fold p doc_id hllset documents :
  (0 ≤ p ≤ 64)%Z → has_metadata hllset →
  ingest_documents tokenize hash_function count_trailing_zeros p doc_id
    hllset documents
  = Returns (foldl (step p) hllset (numbered tokenize doc_id documents)).
Proof.
  intros Hp. revert doc_id hllset.
  induction documents as [|document documents IH]; intros doc_id hllset Hm;
    [done|].
  simpl. rewrite ingest_tokens_fold by done. simpl.
  rewrite IH by by apply has_metadata_foldl_step.
  by rewrite foldl_app.
Qed.

Lemma ingest_dataset_fold p documents :
  (0 ≤ p ≤ 64)%Z →
  ingest_dataset tokenize hash_function count_trailing_zeros documents p
  = Returns (foldl (step p) ∅ (numbered tokenize 0 documents)).
Proof.
  intros Hp. unfold ingest_dataset. apply ingest_documents_fold; [done|].
  apply map_Forall_empty.
Qed.

Lemma ingest_tokens_invalid p doc_id hllset tokens :
  ¬ (0 ≤ p ≤ 64)%Z →
  ingest_tokens hash_function count_trailing_zeros p doc_id hllset tokens
  = if decide (tokens = []) then Returns hllset else Raises ValueError.
Proof.
  intros Hp. destruct tokens as [|token tokens]; [done|].
  simpl. unfold ingest_token. by rewrite bucket_index_invalid.
Qed.

Lemma ingest_documents_invalid p doc_id hllset documents :
  ¬ (0 ≤ p ≤ 64)%Z →
  ingest_documents tokenize hash_function count_trailing_zeros p doc_id
    hllset documents
  = if decide (numbered tokenize doc_id documents = [])
    then Returns hllset else Raises ValueError.
Proof.
  intros Hp. revert doc_id.
  induction documents as [|document documents IH]; intros doc_id; [done|].
  simpl. rewrite ingest_tokens_invalid by done.
  destruct (tokenize document) as [|token tokens]; simpl; [apply IH|done].
Qed.
End IngestionFold.

(** ** What the fold leaves in each bucket *)

Section FoldLookup.
Context {Token : Type}.
Variable hash_function : Token → Z.
Variable count_trailing_zeros : Z → nat.

#[local] Abbreviation step := (step hash_function count_trailing_zeros).
#[local] Abbreviation lands p b :=
  (λ entry : nat * Token, bucket_of (hash_function entry.2) p = b).

Lemma get_zeros_foldl_step p hllset es b :
  get_zeros (foldl (step p) hllset es) b
  = get_zeros hllset b
    ++ ((λ entry, count_trailing_zeros (hash_function entry.2))
          <$> filter (lands p b) es).
Proof.
  revert hllset. induction es as [|e es IH]; intros hllset.
  - by rewrite app_nil_r.
  - simpl. rewrite IH, filter_cons. unfold HllSetSystem.step.
    rewrite get_zeros_add_entry. repeat case_decide; try done.
    + by rewrite <- app_assoc.
    + by rewrite app_nil_r.
Qed.

Lemma get_frequencies_foldl_step p hllset es b :
  get_frequencies (foldl (step p) hllset es) b
  = get_frequencies hllset b ++ ((λ _, 1) <$> filter (lands p b) es).
Proof.
  revert hllset. induction es as [|e es IH]; intros hllset.
  - by rewrite app_nil_r.
  - simpl. rewrite IH, filter_cons. unfold HllSetSystem.step.
    rewrite get_frequencies_add_entry. repeat case_decide; try done.
    + by rewrite <- app_assoc.
    + by rewrite app_nil_r.
Qed.

Lemma get_documents_foldl_step p hllset es b :
  get_documents (foldl (step p) hllset es) b
  = get_documents hllset b ++ (fst <$> filter (lands p b) es).
Proof.
  revert hllset. induction es as [|e es IH]; intros hllset.
  - by rewrite app_nil_r.
  - simpl. rewrite IH, filter_cons. unfold HllSetSystem.step.
    rewrite get_documents_add_entry. repeat case_decide; try done.
    + by rewrite <- app_assoc.
    + by rewrite app_nil_r.
Qed.

Lemma elem_of_dom_foldl_step p hllset es b :
  b ∈ dom (foldl (step p) hllset es)
  ↔ b ∈ dom hllset ∨ ∃ entry, entry ∈ es ∧ lands p b entry.
Proof.
  revert hllset. induction es as [|e es IH]; intros hllset.
  - simpl. split; [auto|]. intros [?|(? & ?%elem_of_nil & _)]; done.
  - simpl. rewrite IH. unfold HllSetSystem.step.
    rewrite dom_add_entry, elem_of_union, elem_of_singleton.
    setoid_rewrite elem_of_cons. split.
    + intros [[->|?]|(e' & ? & ?)]; eauto 6.
    + intros [?|(e' & [->|?] & He)]; eauto 6.
Qed.
End FoldLookup.

(** ** The numbered tokens *)

Section Numbered.
Context {Document Token : Type}.
Variable tokenize : Document → list Token.

Lemma elem_of_numbered k documents d token :
  (d, token) ∈ numbered tokenize k documents
  ↔ k ≤ d ∧ ∃ document,
      documents !! (d - k) = Some document ∧ token ∈ tokenize document.
Proof.
  revert k. induction documents as [|doc documents IH]; intros k; simpl.
  - rewrite elem_of_nil. split; [done|]. by intros (_ & ? & ? & _).
  - rewrite elem_of_app, list_elem_of_fmap, IH. split.
    + intros [(t & [= -> ->] & Ht)|(Hk & doc' & Hd & Ht)].
      * split; [lia|]. exists doc. by rewrite Nat.sub_diag.
      * split; [lia|]. exists doc'. split; [|done].
        by replace (d - k) with (S (d - S k)) by lia.
    + intros (Hk & doc' & Hd & Ht).
      destruct (decide (d = k)) as [->|Hne].
      * left. rewrite Nat.sub_diag in Hd. injection Hd as ->. eauto.
      * right. split; [lia|]. exists doc'. split; [|done].
        by replace (d - k) with (S (d - S k)) in Hd by lia.
Qed.

Lemma elem_of_numbered_token k documents token :
  (∃ d, (d, token) ∈ numbered tokenize k documents)
  ↔ ∃ document, document ∈ documents ∧ token ∈ tokenize document.
Proof.
  setoid_rewrite elem_of_numbered. split.
  - intros (d & _ & doc & Hd & Ht). exists doc. split; [|done].
    apply list_elem_of_lookup. eauto.
  - intros (doc & [i Hi]%list_elem_of_lookup & Ht). exists (k + i).
    split; [lia|]. exists doc. by replace (k + i - k) with i by lia.
Qed.

Lemma numbered_nil k documents :
  numbered tokenize k documents = []
  ↔ Forall (λ document, tokenize document = []) documents.
Proof.
  revert k. induction documents as [|doc documents IH]; intros k; simpl.
  - split; [constructor|done].
  - rewrite Forall_cons, <- (IH (S k)). split.
    + intros [Ht ?]%app_eq_nil. split; [|done]. by apply fmap_nil_inv in Ht.
    + intros [-> ->]. done.
Qed.

Lemma length_numbered k documents :
  length (numbered tokenize k documents)
  = sum_list_with (λ document, length (tokenize document)) documents.
Proof.
  revert k. induction documents as [|doc documents IH]; intros k; simpl.
  - done.
  - by rewrite length_app, length_fmap, IH.
Qed.

Lemma numbered_app k documents1 documents2 :
  numbered tokenize k (documents1 ++ documents2)
  = numbered tokenize k documents1
    ++ numbered tokenize (k + length documents1) documents2.
Proof.
  revert k. induction documents1 as [|doc documents1 IH]; intros k; simpl.
  - by rewrite Nat.add_0_r.
  - rewrite IH, <- app_assoc. by replace (S k + length documents1)
      with (k + S (length documents1)) by lia.
Qed.
End Numbered.

(** ** The runs counted over the whole sketch *)

Lemma entries_add_entry (hllset : HllSet) (b : Z) (z doc_id : nat) :
  entries (add_entry hllset b z doc_id) = S (entries hllset).
Proof.
  unfold entries, add_entry, get_zeros.
  destruct (hllset !! b) as [bucket|] eqn:Hb.
  - rewrite <- (insert_delete_id hllset b bucket Hb) at 4.
    rewrite <- insert_delete_eq.
    rewrite !map_to_list_insert by apply lookup_delete_eq.
    simpl. rewrite length_app. simpl. lia.
  - by rewrite map_to_list_insert by done.
Qed.

(** ** What ingestion returns *)

Section IngestionProperties.
Context {Document Token : Type}.
Variable tokenize : Document → list Token.
Variable hash_function : Token → Z.
Variable count_trailing_zeros : Z → nat.

#[local] Abbreviation ingest :=
  (ingest_dataset tokenize hash_function count_trailing_zeros).
#[local] Abbreviation run_of :=
  (λ entry : nat * Token, count_trailing_zeros (hash_function entry.2)).

(** Whenever ingestion returns, it returns the fold, and either the
    precision is one for which no shift raises or there is no token. *)
Lemma ingest_dataset_returns documents p hllset :
  ingest documents p = Returns hllset →
  hllset = foldl (step hash_function count_trailing_zeros p) ∅
             (numbered tokenize 0 documents)
  ∧ ((0 ≤ p ≤ 64)%Z ∨ numbered tokenize 0 documents = []).
Proof.
  intros Hret. destruct (decide (0 ≤ p ≤ 64)%Z) as [Hp|Hp].
  - rewrite ingest_dataset_fold in Hret by done. injection Hret as <-. auto.
  - unfold ingest_dataset in Hret.
    rewrite ingest_documents_invalid in Hret by done.
    case_decide as Hnil; [|done]. injection Hret as <-.
    rewrite Hnil. auto.
Qed.

Lemma ingest_dataset_dom documents p hllset b :
  ingest documents p = Returns hllset →
  b ∈ dom hllset
  ↔ ∃ entry, entry ∈ numbered tokenize 0 documents
             ∧ bucket_index (hash_function entry.2) p = Returns b.
Proof.
  intros [-> Hp]%ingest_dataset_returns.
  rewrite elem_of_dom_foldl_step, dom_empty_L. destruct Hp as [Hp|Hnil].
  - setoid_rewrite bucket_index_bucket_of; [|done..].
    split; [by intros [?%elem_of_empty|?]|auto].
  - rewrite Hnil. split.
    + by intros [?%elem_of_empty|(? & ?%elem_of_nil & _)].
    + by intros (? & ?%elem_of_nil & _).
Qed.

Lemma ingest_dataset_recorded documents p hllset b z :
  ingest documents p = Returns hllset →
  recorded hllset b z
  ↔ ∃ entry, entry ∈ numbered tokenize 0 documents
             ∧ bucket_index (hash_function entry.2) p = Returns b
             ∧ run_of entry = z.
Proof.
  intros [-> Hp]%ingest_dataset_returns. unfold recorded.
  rewrite get_zeros_foldl_step. unfold get_zeros at 1.
  rewrite lookup_empty, app_nil_l, list_elem_of_fmap.
  setoid_rewrite list_elem_of_filter. destruct Hp as [Hp|Hnil].
  - setoid_rewrite bucket_index_bucket_of; [|done..]. split.
    + intros (e & -> & Hb & He). eauto.
    + intros (e & He & Hb & <-). eauto.
  - rewrite Hnil. split.
    + by intros (? & _ & _ & ?%elem_of_nil).
    + by intros (? & ?%elem_of_nil & _).
Qed.

Lemma ingest_dataset_dom_token documents p hllset b :
  ingest documents p = Returns hllset →
  b ∈ dom hllset
  ↔ ∃ document token,
      document ∈ documents ∧ token ∈ tokenize document
      ∧ bucket_index (hash_function token) p = Returns b.
Proof.
  intros Hret. rewrite (ingest_dataset_dom _ _ _ _ Hret). split.
  - intros ([d t] & He & Hb).
    destruct (proj1 (elem_of_numbered_token tokenize 0 documents t))
      as (doc & ? & ?); eauto 8.
  - intros (doc & t & Hdoc & Ht & Hb).
    destruct (proj2 (elem_of_numbered_token tokenize 0 documents t))
      as [d Hd]; [eauto|]. exists (d, t). eauto.
Qed.

Lemma ingest_dataset_recorded_token documents p hllset b z :
  ingest documents p = Returns hllset →
  recorded hllset b z
  ↔ ∃ document token,
      document ∈ documents ∧ token ∈ tokenize document
      ∧ bucket_index (hash_function token) p = Returns b
      ∧ count_trailing_zeros (hash_function token) = z.
Proof.
  intros Hret. rewrite (ingest_dataset_recorded _ _ _ _ _ Hret). split.
  - intros ([d t] & He & Hb & Hz).
    destruct (proj1 (elem_of_numbered_token tokenize 0 documents t))
      as (doc & ? & ?); eauto 8.
  - intros (doc & t & Hdoc & Ht & Hb & Hz).
    destruct (proj2 (elem_of_numbered_token tokenize 0 documents t))
      as [d Hd]; [eauto|]. exists (d, t). eauto.
Qed.

Lemma ingest_dataset_app_returns documents1 documents2 p A B :
  ingest documents1 p = Returns A → ingest documents2 p = Returns B →
  ∃ C, ingest (documents1 ++ documents2) p = Returns C.
Proof.
  intros [_ H1]%ingest_dataset_returns [_ H2]%ingest_dataset_returns.
  destruct (decide (0 ≤ p ≤ 64)%Z) as [Hp|Hp].
  - eexists. by apply ingest_dataset_fold.
  - destruct H1 as [?|H1]; [done|]. destruct H2 as [?|H2]; [done|].
    exists ∅. unfold ingest_dataset.
    rewrite ingest_documents_invalid by done. rewrite decide_True; [done|].
    apply numbered_nil, Forall_app. by rewrite <- !(numbered_nil tokenize 0).
Qed.

(** X1: for a precision from 0 to 64 ingestion returns a sketch, and each
    bucket of it holds, in the order of ingestion, the run, a frequency 1
    and the document id of every token whose hash lands in the bucket; a
    bucket in which no token lands is absent. *)
Theorem ingest_dataset_buckets (documents : list Document) (p : Z) :
  (0 ≤ p ≤ 64)%Z →
  ∃ hllset,
    ingest_dataset tokenize hash_function count_trailing_zeros
    documents p = Returns hllset
    ∧ ∀ b,
        hllset !! b
        = match filter (λ entry : nat * Token,
                          bucket_index (hash_function entry.2) p = Returns b)
                  (numbered tokenize 0 documents) with
          | [] => None
          | es => Some (mkBucket (run_of <$> es)
                          (Some ((λ _, 1) <$> es)) (Some (fst <$> es)))
          end.
Proof.
  intros Hp. eexists. split; [by apply ingest_dataset_fold|]. intros b.
  set (hllset := foldl _ _ _).
  rewrite (list_filter_iff _
             (λ entry, bucket_of (hash_function entry.2) p = b))
    by (intros e; by apply bucket_index_bucket_of).
  assert (Hm : has_metadata hllset)
    by apply has_metadata_foldl_step, map_Forall_empty.
  pose proof (get_zeros_foldl_step hash_function count_trailing_zeros
                p ∅ (numbered tokenize 0 documents) b) as Hz.
  pose proof (get_frequencies_foldl_step hash_function count_trailing_zeros
                p ∅ (numbered tokenize 0 documents) b) as Hf.
  pose proof (get_documents_foldl_step hash_function count_trailing_zeros
                p ∅ (numbered tokenize 0 documents) b) as Hd.
  pose proof (elem_of_dom_foldl_step hash_function count_trailing_zeros
                p ∅ (numbered tokenize 0 documents) b) as Hdom.
  fold hllset in Hz, Hf, Hd, Hdom.
  unfold get_zeros, get_frequencies, get_documents in Hz, Hf, Hd.
  rewrite lookup_empty in Hz, Hf, Hd. simpl in Hz, Hf, Hd.
  rewrite elem_of_dom, dom_empty_L in Hdom.
  destruct (hllset !! b) as [[zs fs ds]|] eqn:Hb.
  - destruct (Hm b _ Hb) as [[fs' Hfs] [ds' Hds]]. simpl in *.
    cbv [default from_option Datatypes.id] in Hf, Hd. subst.
    destruct (filter _ _) as [|e es] eqn:Hes; [|by rewrite Hf, Hd].
    destruct Hdom as [Hdom _].
    destruct Hdom as [?%elem_of_empty|(e & He & Hbe)]; [eauto|done|].
    exfalso. apply (filter_nil_not_elem_of _ _ e Hes); done.
  - destruct (filter _ _) as [|e es] eqn:Hes; [done|].
    destruct Hdom as [_ Hdom]. destruct Hdom as [? ?]; [|done].
    right. exists e.
    assert (He : e ∈ filter (λ entry : nat * Token,
                   bucket_of (hash_function entry.2) p = b)
                   (numbered tokenize 0 documents))
      by (rewrite Hes; apply elem_of_cons; auto).
    apply list_elem_of_filter in He as [? ?]. done.
Qed.

(** X2: for a precision below 0 or above 64 a shift count is negative:
    ingestion raises [ValueError] as soon as a document has a token, and
    returns the empty sketch when no document has one. *)
Theorem ingest_dataset_invalid_precision (documents : list Document) (p : Z) :
  ¬ (0 ≤ p ≤ 64)%Z →
  (Forall (λ document, tokenize document = []) documents →
   ingest_dataset tokenize hash_function count_trailing_zeros
    documents p = Returns ∅)
  ∧ (Exists (λ document, tokenize document ≠ []) documents →
     ingest_dataset tokenize hash_function count_trailing_zeros
    documents p = Raises ValueError).
Proof.
  intros Hp. unfold ingest_dataset.
  rewrite ingest_documents_invalid by done. split.
  - intros Hall%(numbered_nil tokenize 0). by rewrite decide_True.
  - intros Hex. rewrite decide_False; [done|].
    intros Hall%numbered_nil. apply Exists_exists in Hex as (d & Hd & Hne).
    rewrite Forall_forall in Hall. by apply Hne, Hall.
Qed.

(** X3: whatever integers the hash function returns, every bucket id of an
    ingested sketch lies in [[0, 2^p)]. *)
Theorem ingest_dataset_bucket_ids (documents : list Document) (p : Z)
    (hllset : HllSet) :
  ingest_dataset tokenize hash_function count_trailing_zeros
    documents p = Returns hllset →
  ∀ b, b ∈ dom hllset → (0 ≤ b < 2 ^ p)%Z.
Proof.
  intros Hret b Hb.
  apply (ingest_dataset_dom _ _ _ _ Hret) in Hb as (e & He & Hidx).
  apply ingest_dataset_returns in Hret as [_ [Hp|Hnil]].
  - apply bucket_index_bucket_of in Hidx as <-; [|done].
    apply bucket_of_range. lia.
  - rewrite Hnil in He. by apply elem_of_nil in He.
Qed.

(** X4: no token is dropped and none is counted twice: the runs held by
    an ingested sketch, over all its buckets, are as many as the tokens of
    the documents. *)
Theorem ingest_dataset_entries (documents : list Document) (p : Z)
    (hllset : HllSet) :
  ingest_dataset tokenize hash_function count_trailing_zeros
    documents p = Returns hllset →
  entries hllset
  = sum_list_with (λ document, length (tokenize document)) documents.
Proof.
  intros [-> _]%ingest_dataset_returns.
  rewrite <- (length_numbered tokenize 0).
  generalize (numbered tokenize 0 documents). intros es.
  assert (Hgen : ∀ h, entries (foldl (step hash_function
                         count_trailing_zeros p) h es)
                      = entries h + length es).
  { induction es as [|e es IH]; intros h; simpl; [lia|].
    rewrite IH. unfold step. rewrite entries_add_entry. lia. }
  rewrite Hgen. unfold entries. by rewrite map_to_list_empty.
Qed.

(** X5: an ingested sketch records the pair [(b, z)] exactly when some
    token of some document has bucket index [b] and run [z], and bucket [b]
    refers to document [d] exactly when a token of the document numbered
    [d] has bucket index [b]. *)
Theorem ingest_dataset_pairs_and_documents (documents : list Document)
    (p : Z) (hllset : HllSet) :
  ingest_dataset tokenize hash_function count_trailing_zeros
    documents p = Returns hllset →
  (∀ b z,
     recorded hllset b z
     ↔ ∃ document token,
         document ∈ documents ∧ token ∈ tokenize document
         ∧ bucket_index (hash_function token) p = Returns b
         ∧ count_trailing_zeros (hash_function token) = z)
  ∧ (∀ b d,
       d ∈ get_documents hllset b
       ↔ ∃ document token,
           documents !! d = Some document ∧ token ∈ tokenize document
           ∧ bucket_index (hash_function token) p = Returns b).
Proof.
  intros Hret. split.
  - intros b z. by apply ingest_dataset_recorded_token.
  - intros b d. apply ingest_dataset_returns in Hret as [-> Hp].
    rewrite get_documents_foldl_step. unfold get_documents at 1.
    rewrite lookup_empty, app_nil_l, list_elem_of_fmap.
    setoid_rewrite list_elem_of_filter. split.
    + intros ([d' t] & -> & Hb & He). simpl in *.
      apply elem_of_numbered in He as (_ & doc & Hd & Ht).
      rewrite Nat.sub_0_r in Hd. exists doc, t.
      destruct Hp as [Hp|Hnil].
      * by rewrite bucket_index_bucket_of.
      * exfalso. apply (numbered_nil tokenize 0) in Hnil.
        rewrite Forall_forall in Hnil.
        rewrite (Hnil doc) in Ht by (apply list_elem_of_lookup; eauto).
        by apply elem_of_nil in Ht.
    + intros (doc & t & Hd & Ht & Hb). exists (d, t). simpl.
      assert (He : (d, t) ∈ numbered tokenize 0 documents).
      { apply elem_of_numbered. split; [lia|]. exists doc.
        by rewrite Nat.sub_0_r. }
      split; [done|]. split; [|done]. destruct Hp as [Hp|Hnil].
      * by apply bucket_index_bucket_of.
      * rewrite Hnil in He. by apply elem_of_nil in He.
Qed.

(** X6: sketches merge: the union of the sketches of two lists of
    documents, ingested with the same precision, has the content (bucket
    ids, and runs of each bucket as a set) of the sketch of the two lists
    ingested together. *)
Theorem union_of_ingested `{SetOrder} (documents1 documents2 : list Document)
    (p : Z) (A B : HllSet) :
  ingest_dataset tokenize hash_function count_trailing_zeros
    documents1 p = Returns A →
  ingest_dataset tokenize hash_function count_trailing_zeros
    documents2 p = Returns B →
  ∃ C, ingest_dataset tokenize hash_function count_trailing_zeros
    (documents1 ++ documents2) p = Returns C
       ∧ content (union A B) = content C.
Proof.
  intros HA HB.
  destruct (ingest_dataset_app_returns _ _ _ _ _ HA HB) as [C HC].
  exists C. split; [done|]. apply content_eq.
  - apply set_eq. intros b. rewrite dom_union, elem_of_union.
    rewrite (ingest_dataset_dom_token _ _ _ _ HA),
      (ingest_dataset_dom_token _ _ _ _ HB),
      (ingest_dataset_dom_token _ _ _ _ HC).
    setoid_rewrite elem_of_app. split.
    + intros [(doc & t & ? & ?)|(doc & t & ? & ?)]; exists doc, t; auto.
    + intros (doc & t & [?|?] & ?); [left|right]; exists doc, t; auto.
  - intros b. rewrite zset_union. apply set_eq. intros z.
    rewrite elem_of_union. unfold zset. rewrite !elem_of_list_to_set.
    change (z ∈ get_zeros ?h b) with (recorded h b z).
    rewrite (ingest_dataset_recorded_token _ _ _ _ _ HA),
      (ingest_dataset_recorded_token _ _ _ _ _ HB),
      (ingest_dataset_recorded_token _ _ _ _ _ HC).
    setoid_rewrite elem_of_app. split.
    + intros [(doc & t & ? & ?)|(doc & t & ? & ?)]; exists doc, t; auto.
    + intros (doc & t & [?|?] & ?); [left|right]; exists doc, t; auto.
Qed.

(** X7: the content of an ingested sketch depends on the set of tokens
    only: two lists of documents with the same tokens, in whatever order,
    however often repeated and however spread over the documents, give
    sketches with the same bucket ids and the same runs in each bucket. *)
Theorem ingest_dataset_content_of_tokens (documents1 documents2 : list Document)
    (p : Z) (A B : HllSet) :
  ingest_dataset tokenize hash_function count_trailing_zeros
    documents1 p = Returns A →
  ingest_dataset tokenize hash_function count_trailing_zeros
    documents2 p = Returns B →
  (∀ token,
     (∃ document, document ∈ documents1 ∧ token ∈ tokenize document)
     ↔ (∃ document, document ∈ documents2 ∧ token ∈ tokenize document)) →
  content A = content B.
Proof.
  intros HA HB Htok. apply content_eq.
  - apply set_eq. intros b.
    rewrite (ingest_dataset_dom_token _ _ _ _ HA),
      (ingest_dataset_dom_token _ _ _ _ HB). split.
    + intros (doc & t & Hd & Ht & Hb).
      destruct (proj1 (Htok t)) as (doc' & ? & ?); eauto 8.
    + intros (doc & t & Hd & Ht & Hb).
      destruct (proj2 (Htok t)) as (doc' & ? & ?); eauto 8.
  - intros b. apply set_eq. intros z. unfold zset.
    rewrite !elem_of_list_to_set.
    change (z ∈ get_zeros ?h b) with (recorded h b z).
    rewrite (ingest_dataset_recorded_token _ _ _ _ _ HA),
      (ingest_dataset_recorded_token _ _ _ _ _ HB). split.
    + intros (doc & t & Hd & Ht & Hb).
      destruct (proj1 (Htok t)) as (doc' & ? & ?); eauto 8.
    + intros (doc & t & Hd & Ht & Hb).
      destruct (proj2 (Htok t)) as (doc' & ? & ?); eauto 8.
Qed.
End IngestionProperties.

(** ** Further laws of the three operations *)

Lemma elem_of_zset_dom (hllset : HllSet) (b : Z) (z : nat) :
  z ∈ zset hllset b → b ∈ dom hllset.
Proof.
  unfold zset, get_zeros. rewrite elem_of_dom.
  destruct (hllset !! b); [eauto|]. by intros ?%elem_of_empty.
Qed.

Lemma elem_of_dom_nonempty (hllset : HllSet) (b : Z) :
  nonempty_buckets hllset → b ∈ dom hllset ↔ ∃ z, z ∈ zset hllset b.
Proof.
  intros Hne. split; [|by intros [z ?%elem_of_zset_dom]].
  intros [bucket Hb]%elem_of_dom. specialize (Hne b bucket Hb). simpl in Hne.
  unfold zset, get_zeros. rewrite Hb.
  destruct (zeros bucket) as [|z zs]; [done|]. exists z.
  apply elem_of_list_to_set, elem_of_cons. auto.
Qed.

Lemma content_dom_zset (h1 h2 : HllSet) :
  content h1 = content h2 → dom h1 = dom h2 ∧ ∀ b, zset h1 b = zset h2 b.
Proof.
  intros Hc. split.
  - by rewrite <- !dom_content, Hc.
  - intros b. by rewrite !zset_lookup, Hc.
Qed.

Section MoreLaws.
Context `{SetOrder}.
Implicit Types A B C : HllSet.

Lemma list_set_nil_inv (l : list nat) : list_set l = [] → l = [].
Proof.
  intros Hl. destruct l as [|x l]; [done|]. exfalso.
  apply (not_elem_of_nil x). rewrite <- Hl.
  apply elem_of_list_set, elem_of_cons. auto.
Qed.

Lemma intersection_empty_iff A B :
  intersection A B = ∅ ↔ disjoint_sketches A B.
Proof.
  rewrite <- dom_empty_iff_L. split.
  - intros Hd b z Hz1 Hz2.
    apply (not_elem_of_empty (C := gset Z) b). rewrite <- Hd.
    apply elem_of_dom_intersection. eauto.
  - intros Hd. apply set_eq. intros b.
    rewrite elem_of_dom_intersection. split.
    + intros (z & Hz1 & Hz2). by destruct (Hd b z).
    + by intros ?%elem_of_empty.
Qed.

Lemma size_intersection_le_union A B :
  size (intersection A B) ≤ size (union A B).
Proof.
  rewrite <- !size_dom. apply subseteq_size.
  rewrite dom_union. etransitivity; [apply dom_intersection_subseteq|].
  intros b [? _]%elem_of_intersection. apply elem_of_union. auto.
Qed.

(** X8: the lists that the operations build hold each run once, and
    [intersection] stores no bucket without a run. *)
Theorem results_duplicate_free A B :
  map_Forall (λ _ bucket, NoDup (zeros bucket)) (union A B)
  ∧ map_Forall (λ _ bucket, NoDup (zeros bucket) ∧ zeros bucket ≠ [])
      (intersection A B).
Proof.
  split.
  - intros b bucket. rewrite lookup_union. case_decide; [|done].
    intros [= <-]. apply NoDup_list_set.
  - intros b bucket. rewrite lookup_intersection.
    destruct (A !! b); [|done]. destruct (B !! b); [|done]. cbv zeta.
    destruct (truthy _) eqn:Ht; [|done]. intros [= <-]. simpl.
    split; [apply NoDup_list_set_intersection|].
    intros Hnil. by rewrite Hnil in Ht.
Qed.

(** X9: sketches in which every bucket holds a run, as ingestion makes
    them, stay so under [union] and [complement]. *)
Theorem nonempty_buckets_closed A B :
  nonempty_buckets A → nonempty_buckets B →
  nonempty_buckets (union A B) ∧ nonempty_buckets (complement A B).
Proof.
  intros HA HB. split.
  - intros b bucket. rewrite lookup_union. case_decide as Hin; [|done].
    intros [= <-]. simpl. intros Hnil%list_set_nil_inv.
    apply app_eq_nil in Hnil as [H1 H2]. unfold get_zeros in H1, H2.
    apply elem_of_union in Hin as [[b1 Hb]%elem_of_dom|[b2 Hb]%elem_of_dom].
    + rewrite Hb in H1. by apply (HA b b1).
    + rewrite Hb in H2. by apply (HB b b2).
  - intros b bucket. rewrite lookup_complement.
    destruct (A !! b) as [b1|] eqn:Hb1; [|done].
    destruct (B !! b) as [b2|]; [|intros [= <-]; by apply (HA b b1)].
    cbv zeta. destruct (truthy _) eqn:Ht; [|done]. intros [= <-]. simpl.
    intros Hnil. by rewrite Hnil in Ht.
Qed.

(** X10: [intersection] distributes over [union], contents compared as
    sets. *)
Theorem intersection_union_distr A B C :
  content (intersection A (union B C))
  = content (union (intersection A B) (intersection A C)).
Proof.
  apply content_eq.
  - apply set_eq. intros b.
    rewrite dom_union, elem_of_union, !elem_of_dom_intersection.
    setoid_rewrite zset_union. setoid_rewrite elem_of_union. split.
    + intros (z & ? & [?|?]); eauto.
    + intros [(z & ? & ?)|(z & ? & ?)]; eauto.
  - intros b. rewrite zset_union, !zset_intersection, zset_union.
    apply (intersection_union_l_L (zset A b)).
Qed.

(** X11: [union] is idempotent and absorbs an intersection, contents
    compared as sets. *)
Theorem union_idempotent_absorbing A B :
  content (union A A) = content A
  ∧ content (union A (intersection A B)) = content A.
Proof.
  split; apply content_eq.
  - rewrite dom_union. apply (idemp_L (∪)).
  - intros b. rewrite zset_union. apply (idemp_L (∪)).
  - rewrite dom_union, (comm_L (∪)). apply subseteq_union_1_L.
    etransitivity; [apply dom_intersection_subseteq|].
    by intros b [? _]%elem_of_intersection.
  - intros b. rewrite zset_union, zset_intersection, (comm_L (∪)).
    apply subseteq_union_1_L. by intros z [? _]%elem_of_intersection.
Qed.

(** X12: on a sketch in which every bucket holds a run, [intersection]
    is idempotent and absorbs a union, contents compared as sets. *)
Theorem intersection_idempotent_absorbing A B :
  nonempty_buckets A →
  content (intersection A A) = content A
  ∧ content (intersection A (union A B)) = content A.
Proof.
  intros HA. split; apply content_eq.
  - apply set_eq. intros b.
    rewrite elem_of_dom_intersection, (elem_of_dom_nonempty A b HA).
    split; [intros (z & ? & _)|intros [z ?]]; eauto.
  - intros b. rewrite zset_intersection. apply (idemp_L (∩)).
  - apply set_eq. intros b.
    rewrite elem_of_dom_intersection, (elem_of_dom_nonempty A b HA).
    setoid_rewrite zset_union. setoid_rewrite elem_of_union.
    split; [intros (z & ? & _)|intros [z ?]]; eauto.
  - intros b. rewrite zset_intersection, zset_union.
    apply subseteq_intersection_1_L. intros z ?. apply elem_of_union. auto.
Qed.


(** X14: with an empty operand: [intersection] returns the empty sketch,
    [complement(A, {})] returns [A] whole, metadata included,
    [complement({}, B)] and [union({}, {})] return the empty sketch. *)
Theorem empty_operands A :
  intersection A ∅ = ∅ ∧ intersection ∅ A = ∅
  ∧ complement A ∅ = A ∧ complement ∅ A = ∅
  ∧ union ∅ ∅ = ∅.
Proof.
  split; [|split; [|split; [|split]]].
  - apply map_eq. intros b. rewrite lookup_intersection, !lookup_empty.
    by destruct (A !! b).
  - apply map_eq. intros b. by rewrite lookup_intersection, !lookup_empty.
  - apply complement_disjoint_dom. rewrite dom_empty_L.
    intros b _ ?%elem_of_empty. done.
  - apply map_eq. intros b. by rewrite lookup_complement, !lookup_empty.
  - by rewrite union_empty_r, fmap_empty.
Qed.

(** X15: [difference(A, B)] records exactly the (bucket, run) pairs of
    [A] that [B] does not record. *)
Theorem difference_pairs A B b z :
  recorded (difference A B) b z ↔ recorded A b z ∧ ¬ recorded B b z.
Proof.
  unfold difference, recorded.
  rewrite <- !(elem_of_list_to_set (C := gset nat)).
  change (list_to_set (get_zeros ?h b)) with (zset h b).
  by rewrite zset_complement, elem_of_difference.
Qed.
End MoreLaws.

(** ** The similarity score *)

Section Similarity.
Context `{SetOrder}.
Implicit Types A B : HllSet.

Lemma size_union_comm A B : size (union A B) = size (union B A).
Proof. by rewrite <- !size_dom, !dom_union, (comm_L (∪)). Qed.

Lemma size_intersection_comm A B :
  size (intersection A B) = size (intersection B A).
Proof. by rewrite <- !size_dom, dom_intersection_comm. Qed.

Lemma size_union_zero A B : size (union A B) = 0 → intersection A B = ∅.
Proof.
  intros Hu. apply map_size_empty_iff.
  pose proof (size_intersection_le_union A B). lia.
Qed.

(** X16: [jaccard_similarity] never raises, and the score it returns
    lies between 0 and 1. *)
Theorem jaccard_similarity_range A B :
  ∃ q, jaccard_similarity A B = Returns q ∧ (0 <= q)%Q ∧ (q <= 1)%Q.
Proof.
  rewrite jaccard_similarity_unfold. eexists. split; [done|].
  pose proof (size_intersection_le_union A B) as Hle.
  case_decide as Hu; [done|].
  unfold Qle. simpl. split; lia.
Qed.

(** X17: [jaccard_similarity] is symmetric. *)
Theorem jaccard_similarity_sym A B :
  jaccard_similarity A B = jaccard_similarity B A.
Proof.
  rewrite !jaccard_similarity_unfold.
  by rewrite (size_union_comm A B), (size_intersection_comm A B).
Qed.

(** X18: a sketch that has a bucket, and a run in every bucket, has
    similarity 1 with itself. *)
Theorem jaccard_similarity_self A :
  A ≠ ∅ → nonempty_buckets A →
  ∃ q, jaccard_similarity A A = Returns q ∧ (q == 1)%Q.
Proof.
  intros Hne HA. rewrite jaccard_similarity_unfold. eexists. split; [done|].
  assert (Hu : size (union A A) = size A).
  { by rewrite <- !size_dom, dom_union, (idemp_L (∪)). }
  assert (Hi : size (intersection A A) = size A).
  { rewrite <- !size_dom. f_equal. apply set_eq. intros b.
    rewrite elem_of_dom_intersection, (elem_of_dom_nonempty A b HA).
    split; [intros (z & ? & _)|intros [z ?]]; eauto. }
  rewrite Hu, Hi. rewrite decide_False by by rewrite map_size_empty_iff.
  assert (size A ≠ 0) by by rewrite map_size_empty_iff.
  unfold Qeq. simpl. lia.
Qed.

(** X19: the similarity is 0 exactly when the two sketches have no
    (bucket, run) pair in common. *)
Theorem jaccard_similarity_zero_iff A B :
  ∃ q, jaccard_similarity A B = Returns q
       ∧ ((q == 0)%Q ↔ disjoint_sketches A B).
Proof.
  rewrite jaccard_similarity_unfold. eexists. split; [done|].
  rewrite <- intersection_empty_iff, <- map_size_empty_iff.
  case_decide as Hu.
  - split; [|done]. intros _. apply map_size_empty_iff.
    by apply size_union_zero.
  - unfold Qeq. simpl. lia.
Qed.

(** X20: the similarity depends on the contents of the two sketches
    only: not on the order or the repetition of the runs in a bucket, nor
    on frequencies and documents. *)
Theorem jaccard_similarity_content A A' B B' :
  content A = content A' → content B = content B' →
  jaccard_similarity A B = jaccard_similarity A' B'.
Proof.
  intros [HdA HzA]%content_dom_zset [HdB HzB]%content_dom_zset.
  rewrite !jaccard_similarity_unfold.
  assert (size (union A B) = size (union A' B')) as ->.
  { by rewrite <- !size_dom, !dom_union, HdA, HdB. }
  assert (size (intersection A B) = size (intersection A' B')) as ->.
  { rewrite <- !size_dom. f_equal. apply set_eq. intros b.
    rewrite !elem_of_dom_intersection. by rewrite HzA, HzB. }
  done.
Qed.
End Similarity.

(** ** Complements composed *)

Lemma zset_not_dom (hllset : HllSet) (b : Z) :
  b ∉ dom hllset → zset hllset b = ∅.
Proof.
  intros Hb%not_elem_of_dom. unfold zset, get_zeros. by rewrite Hb.
Qed.

Section ComplementLaws.
Context `{SetOrder}.
Implicit Types A B C : HllSet.

(** X21: removing [B] and then [C] is removing their union, contents
    compared as sets. *)
Theorem complement_complement A B C :
  content (complement (complement A B) C)
  = content (complement A (union B C)).
Proof.
  pose proof (not_elem_of_empty (C := gset nat)) as Hempty.
  apply content_eq.
  - apply set_eq. intros b.
    rewrite !elem_of_dom_complement, dom_union, not_elem_of_union.
    setoid_rewrite zset_complement. setoid_rewrite zset_union.
    setoid_rewrite elem_of_difference. setoid_rewrite not_elem_of_union.
    destruct (decide (b ∈ dom B)) as [HB|HB],
             (decide (b ∈ dom C)) as [HC|HC].
    + split.
      * intros [[? _] [?|(z & [? ?] & ?)]]; [done|eauto 8].
      * intros [? [[? _]|(z & ? & ? & ?)]]; [done|eauto 10].
    + rewrite (zset_not_dom C b HC). split.
      * intros [[? [?|(z & ? & ?)]] _]; [done|]. eauto 8.
      * intros [? [[? _]|(z & ? & ? & _)]]; [done|]. eauto 8.
    + rewrite (zset_not_dom B b HB). split.
      * intros [[? _] [?|(z & [? _] & ?)]]; [done|]. eauto 8.
      * intros [? [[_ ?]|(z & ? & _ & ?)]]; [done|]. eauto 10.
    + split; [intros [[? _] _]|intros [? _]]; eauto.
  - intros b. rewrite !zset_complement, zset_union.
    apply set_eq. intros z.
    rewrite !elem_of_difference, not_elem_of_union. tauto.
Qed.

(** X22: on a sketch in which every bucket holds a run, removing what
    [complement(A, B)] keeps leaves [intersection(A, B)], contents compared
    as sets. *)
Theorem complement_of_complement A B :
  nonempty_buckets A →
  content (complement A (complement A B)) = content (intersection A B).
Proof.
  intros HA. apply content_eq.
  - apply set_eq. intros b.
    rewrite !elem_of_dom_complement, elem_of_dom_intersection,
      (elem_of_dom_nonempty A b HA).
    setoid_rewrite zset_complement. setoid_rewrite elem_of_difference.
    split.
    + intros [[z Hz] [Hn|(z' & ? & Hn)]].
      * destruct (decide (z ∈ zset B b)) as [?|Hnz]; [eauto|].
        exfalso. apply Hn. split; [eauto|]. right. eauto.
      * destruct (decide (z' ∈ zset B b)) as [?|Hnz]; [eauto|].
        exfalso. apply Hn. eauto.
    + intros (z & Hz & HzB). split; [eauto|]. right. exists z.
      split; [done|]. by intros [_ ?].
  - intros b. rewrite !zset_complement, zset_intersection.
    apply set_eq. intros z.
    rewrite !elem_of_difference, elem_of_intersection.
    destruct (decide (z ∈ zset B b)); tauto.
Qed.
End ComplementLaws.

(** ** The order of the document ids *)

Lemma StronglySorted_filter {A} (R : relation A) (P : A → Prop)
    `{∀ x, Decision (P x)} (l : list A) :
  StronglySorted R l → StronglySorted R (filter P l).
Proof.
  induction l as [|x l IH]; [done|].
  rewrite StronglySorted_cons, filter_cons. intros [Hx Hl].
  case_decide; [|by apply IH]. apply StronglySorted_cons.
  split; [|by apply IH]. rewrite Forall_forall in Hx. apply Forall_forall.
  intros y [_ ?]%list_elem_of_filter. by apply Hx.
Qed.

Section DocumentOrder.
Context {Document Token : Type}.
Variable tokenize : Document → list Token.
Variable hash_function : Token → Z.
Variable count_trailing_zeros : Z → nat.

Lemma numbered_sorted k (documents : list Document) :
  StronglySorted (λ e1 e2 : nat * Token, e1.1 ≤ e2.1)
    (numbered tokenize k documents).
Proof.
  revert k. induction documents as [|doc documents IH]; intros k; simpl.
  - constructor.
  - apply StronglySorted_app_2; [| |apply IH].
    + intros [d1 t1] [d2 t2] (t & [= -> ->] & _)%list_elem_of_fmap
        [Hk _]%elem_of_numbered. simpl. lia.
    + induction (tokenize doc) as [|t ts IHts]; simpl; [constructor|].
      apply StronglySorted_cons. split; [|done]. apply Forall_forall.
      by intros [d' t'] (? & [= -> ->] & _)%list_elem_of_fmap.
Qed.

(** X23: in every bucket of an ingested sketch the document ids are in
    non-decreasing order, and each is the number of a document. *)
Theorem ingest_dataset_documents_sorted (documents : list Document) (p : Z)
    (hllset : HllSet) :
  ingest_dataset tokenize hash_function count_trailing_zeros documents p
  = Returns hllset →
  ∀ b, StronglySorted le (get_documents hllset b)
       ∧ Forall (λ d, d < length documents) (get_documents hllset b).
Proof.
  intros [-> _]%ingest_dataset_returns b.
  rewrite get_documents_foldl_step. unfold get_documents.
  rewrite lookup_empty, !app_nil_l. split.
  - apply (StronglySorted_fmap _ (λ e1 e2 : nat * Token, e1.1 ≤ e2.1));
      [done|].
    apply StronglySorted_filter, numbered_sorted.
  - apply Forall_forall.
    intros d ([d' t] & -> & [_ He]%list_elem_of_filter)%list_elem_of_fmap.
    apply elem_of_numbered in He as (_ & doc & Hd & _). simpl.
    rewrite Nat.sub_0_r in Hd. by apply lookup_lt_Some in Hd.
Qed.
End DocumentOrder.

(** ** The further properties at concrete inputs *)

Lemma nonempty_buckets_one_bucket (b : Z) (z : nat) :
  nonempty_buckets (one_bucket b z).
Proof. by apply map_Forall_singleton. Qed.

Lemma tokens_of_token52 (documents : list (list Z)) :
  Forall (λ document, Forall (λ token, token = token52) document) documents →
  Exists (λ document, hashes document ≠ []) documents →
  ∀ token,
    (∃ document, document ∈ documents ∧ token ∈ hashes document)
    ↔ token = token52.
Proof.
  intros Hall Hex token. rewrite Forall_forall in Hall. split.
  - intros (doc & Hdoc & Ht). specialize (Hall doc Hdoc).
    rewrite Forall_forall in Hall. by apply Hall.
  - intros ->. apply Exists_exists in Hex as (doc & Hdoc & Hne).
    exists doc. split; [done|]. specialize (Hall doc Hdoc).
    unfold hashes in *. destruct doc as [|t doc]; [done|].
    apply Forall_cons in Hall as [-> _]. apply elem_of_cons. auto.
Qed.

(** X1, witness. *)
Lemma ingest_dataset_buckets_witness :
  (0 ≤ 4 ≤ 64)%Z
  ∧ ∃ hllset,
      ingest_dataset hashes hash_value trailing_zeros [[token52]] 4
      = Returns hllset
      ∧ ∀ b,
          hllset !! b
          = match filter (λ entry : nat * Z,
                            bucket_index (hash_value entry.2) 4 = Returns b)
                    (numbered hashes 0 [[token52]]) with
            | [] => None
            | es => Some (mkBucket
                            ((λ entry : nat * Z,
                                trailing_zeros (hash_value entry.2)) <$> es)
                            (Some ((λ _, 1) <$> es)) (Some (fst <$> es)))
            end.
Proof.
  assert (Hp : (0 ≤ 4 ≤ 64)%Z) by lia.
  split; [exact Hp|].
  exact (ingest_dataset_buckets hashes hash_value trailing_zeros
           [[token52]] 4 Hp).
Defined.

(** X2, witness. *)
Lemma ingest_dataset_invalid_precision_witness :
  ¬ (0 ≤ -1 ≤ 64)%Z
  ∧ Exists (λ document, hashes document ≠ []) [[token52]]
  ∧ ingest_dataset hashes hash_value trailing_zeros [[token52]] (-1)
    = Raises ValueError.
Proof.
  assert (Hp : ¬ (0 ≤ -1 ≤ 64)%Z) by lia.
  assert (Hex : Exists (λ document, hashes document ≠ []) [[token52]])
    by (apply Exists_cons_hd; discriminate).
  split; [exact Hp|]. split; [exact Hex|].
  exact (proj2 (ingest_dataset_invalid_precision hashes hash_value
                  trailing_zeros [[token52]] (-1) Hp) Hex).
Defined.

(** X3, witness. *)
Lemma ingest_dataset_bucket_ids_witness :
  ingest_dataset hashes hash_value trailing_zeros [[token52]] 4
  = Returns (one_bucket 5 2)
  ∧ 5%Z ∈ dom (one_bucket 5 2)
  ∧ (0 ≤ 5 < 2 ^ 4)%Z.
Proof.
  assert (Hret : ingest_dataset hashes hash_value trailing_zeros
                   [[token52]] 4 = Returns (one_bucket 5 2)) by reflexivity.
  assert (Hb : 5%Z ∈ dom (one_bucket 5 2)).
  { unfold one_bucket. rewrite dom_singleton_L. by apply elem_of_singleton. }
  split; [exact Hret|]. split; [exact Hb|].
  exact (ingest_dataset_bucket_ids hashes hash_value trailing_zeros
           [[token52]] 4 (one_bucket 5 2) Hret 5%Z Hb).
Defined.

(** X4, witness. *)
Lemma ingest_dataset_entries_witness :
  ingest_dataset hashes hash_value trailing_zeros [[token52; token52]] 4
  = Returns (repeated_bucket 5 2)
  ∧ entries (repeated_bucket 5 2)
    = sum_list_with (λ document, length (hashes document))
        [[token52; token52]].
Proof.
  assert (Hret : ingest_dataset hashes hash_value trailing_zeros
                   [[token52; token52]] 4 = Returns (repeated_bucket 5 2))
    by reflexivity.
  split; [exact Hret|].
  exact (ingest_dataset_entries hashes hash_value trailing_zeros
           [[token52; token52]] 4 (repeated_bucket 5 2) Hret).
Defined.

(** X5, witness. *)
Lemma ingest_dataset_pairs_and_documents_witness :
  ingest_dataset hashes hash_value trailing_zeros [[token52]] 4
  = Returns (one_bucket 5 2)
  ∧ (recorded (one_bucket 5 2) 5 2
     ↔ ∃ document token,
         document ∈ [[token52]] ∧ token ∈ hashes document
         ∧ bucket_index (hash_value token) 4 = Returns 5%Z
         ∧ trailing_zeros (hash_value token) = 2).
Proof.
  assert (Hret : ingest_dataset hashes hash_value trailing_zeros
                   [[token52]] 4 = Returns (one_bucket 5 2)) by reflexivity.
  split; [exact Hret|].
  exact (proj1 (ingest_dataset_pairs_and_documents hashes hash_value
                  trailing_zeros [[token52]] 4 (one_bucket 5 2) Hret) 5%Z 2).
Defined.

(** X6, witness. *)
Lemma union_of_ingested_witness :
  ingest_dataset hashes hash_value trailing_zeros [[token52]] 4
  = Returns (one_bucket 5 2)
  ∧ ∃ C,
      ingest_dataset hashes hash_value trailing_zeros
        ([[token52]] ++ [[token52]]) 4 = Returns C
      ∧ content (@union first_occurrence_order (one_bucket 5 2)
                   (one_bucket 5 2))
        = content C.
Proof.
  assert (Hret : ingest_dataset hashes hash_value trailing_zeros
                   [[token52]] 4 = Returns (one_bucket 5 2)) by reflexivity.
  split; [exact Hret|].
  exact (union_of_ingested hashes hash_value trailing_zeros
           (H := first_occurrence_order) [[token52]] [[token52]] 4
           (one_bucket 5 2) (one_bucket 5 2) Hret Hret).
Defined.

(** X7, witness. *)
Lemma ingest_dataset_content_of_tokens_witness :
  ingest_dataset hashes hash_value trailing_zeros [[token52; token52]] 4
  = Returns (repeated_bucket 5 2)
  ∧ ingest_dataset hashes hash_value trailing_zeros [[token52]] 4
    = Returns (one_bucket 5 2)
  ∧ content (repeated_bucket 5 2) = content (one_bucket 5 2).
Proof.
  assert (H1 : ingest_dataset hashes hash_value trailing_zeros
                 [[token52; token52]] 4 = Returns (repeated_bucket 5 2))
    by reflexivity.
  assert (H2 : ingest_dataset hashes hash_value trailing_zeros
                 [[token52]] 4 = Returns (one_bucket 5 2)) by reflexivity.
  split; [exact H1|]. split; [exact H2|].
  apply (ingest_dataset_content_of_tokens hashes hash_value trailing_zeros
           [[token52; token52]] [[token52]] 4 _ _ H1 H2).
  intros token. rewrite !tokens_of_token52; [done|..].
  - repeat constructor.
  - apply Exists_cons_hd. discriminate.
  - repeat constructor.
  - apply Exists_cons_hd. discriminate.
Defined.

(** X9, witness. *)
Lemma nonempty_buckets_closed_witness :
  nonempty_buckets (one_bucket 0 1) ∧ nonempty_buckets (one_bucket 0 2)
  ∧ nonempty_buckets
      (@union first_occurrence_order (one_bucket 0 1) (one_bucket 0 2))
  ∧ nonempty_buckets
      (@complement first_occurrence_order (one_bucket 0 1) (one_bucket 0 2)).
Proof.
  split; [apply nonempty_buckets_one_bucket|].
  split; [apply nonempty_buckets_one_bucket|].
  exact (nonempty_buckets_closed (H := first_occurrence_order)
           (one_bucket 0 1) (one_bucket 0 2)
           (nonempty_buckets_one_bucket 0 1)
           (nonempty_buckets_one_bucket 0 2)).
Defined.

(** X12, witness. *)
Lemma intersection_idempotent_absorbing_witness :
  nonempty_buckets (one_bucket 0 1)
  ∧ content (@intersection first_occurrence_order (one_bucket 0 1)
               (one_bucket 0 1))
    = content (one_bucket 0 1)
  ∧ content (@intersection first_occurrence_order (one_bucket 0 1)
               (@union first_occurrence_order (one_bucket 0 1)
                  (one_bucket 0 2)))
    = content (one_bucket 0 1).
Proof.
  split; [apply nonempty_buckets_one_bucket|].
  exact (intersection_idempotent_absorbing (H := first_occurrence_order)
           (one_bucket 0 1) (one_bucket 0 2)
           (nonempty_buckets_one_bucket 0 1)).
Defined.


(** X18, witness. *)
Lemma jaccard_similarity_self_witness :
  one_bucket 5 2 ≠ ∅ ∧ nonempty_buckets (one_bucket 5 2)
  ∧ ∃ q, @jaccard_similarity first_occurrence_order (one_bucket 5 2)
           (one_bucket 5 2) = Returns q
         ∧ (q == 1)%Q.
Proof.
  assert (Hne : one_bucket 5 2 ≠ ∅) by apply insert_non_empty.
  split; [exact Hne|]. split; [apply nonempty_buckets_one_bucket|].
  exact (jaccard_similarity_self (H := first_occurrence_order)
           (one_bucket 5 2) Hne (nonempty_buckets_one_bucket 5 2)).
Defined.

(** X20, witness. *)
Lemma jaccard_similarity_content_witness :
  content (repeated_bucket 0 0) = content (one_bucket 0 0)
  ∧ content two_buckets = content two_buckets
  ∧ @jaccard_similarity first_occurrence_order (repeated_bucket 0 0)
      two_buckets
    = @jaccard_similarity first_occurrence_order (one_bucket 0 0) two_buckets.
Proof.
  assert (Hc : content (repeated_bucket 0 0) = content (one_bucket 0 0)).
  { unfold content, repeated_bucket, one_bucket.
    rewrite !map_fmap_singleton. f_equal. }
  split; [exact Hc|]. split; [reflexivity|].
  exact (jaccard_similarity_content (H := first_occurrence_order)
           (repeated_bucket 0 0) (one_bucket 0 0) two_buckets two_buckets
           Hc eq_refl).
Defined.

(** X22, witness. *)
Lemma complement_of_complement_witness :
  nonempty_buckets two_buckets
  ∧ content (@complement first_occurrence_order two_buckets
               (@complement first_occurrence_order two_buckets
                  (one_bucket 0 0)))
    = content (@intersection first_occurrence_order two_buckets
                 (one_bucket 0 0)).
Proof.
  assert (Hne : nonempty_buckets two_buckets).
  { apply map_Forall_insert_2;
      solve [done | apply nonempty_buckets_one_bucket]. }
  split; [exact Hne|].
  exact (complement_of_complement (H := first_occurrence_order)
           two_buckets (one_bucket 0 0) Hne).
Defined.

(** X23, witness. *)
Lemma ingest_dataset_documents_sorted_witness :
  ingest_dataset hashes hash_value trailing_zeros [[token52; token52]] 4
  = Returns (repeated_bucket 5 2)
  ∧ StronglySorted le (get_documents (repeated_bucket 5 2) 5)
  ∧ Forall (λ d, d < length [[token52; token52]])
      (get_documents (repeated_bucket 5 2) 5).
Proof.
  assert (Hret : ingest_dataset hashes hash_value trailing_zeros
                   [[token52; token52]] 4 = Returns (repeated_bucket 5 2))
    by reflexivity.
  split; [exact Hret|].
  exact (ingest_dataset_documents_sorted hashes hash_value trailing_zeros
           [[token52; token52]] 4 (repeated_bucket 5 2) Hret 5%Z).
Defined.

End HllSetSystem.
